(** * localstorage-slim: entry codec, configuration merge and sweep

    A shallow embedding of [src/ls.ts].  The module wraps the browser's
    [localStorage] (a string-to-string store) with optional TTL expiry,
    optional obfuscation and optional key prefixes.

    Conventions of the embedding.
    - A JS string is the list of its UTF-16 code units ([str]); every unit of
      a real string lies in [0, 65536) ([wf_str]).
    - A JS number is an integer ([Z]).  JS numbers are doubles; the embedding
      is exact on the safe integers (magnitude below 2^53) and leaves
      fractions, NaN and the infinities out.  A JSON number literal with a
      fraction or an exponent is therefore outside what [JSON_parse] reads.
    - A JS object is the list of its own properties in enumeration order.
      (The engine's rule that array-index keys enumerate first is not
      modelled; it changes the order of a stored text, not its content.)
    - An operation that can throw returns an [outcome].
    - [Date.now()] is the argument [now] of each operation. *)

From Stdlib Require Import ZArith List Lia String Ascii DecimalZ DecimalFacts DecimalPos.
From stdpp Require Import base gmap list.

Open Scope Z_scope.
Local Set Warnings "-register-all".

(** ** Strings as UTF-16 code units *)

Abbreviation str := (list Z).

(** An ASCII literal as code units. *)
Definition u16 (s : string) : str :=
  map (fun a => Z.of_N (N_of_ascii a)) (list_ascii_of_string s).

Definition wf_str (s : str) : Prop := Forall (fun c => 0 <= c < 65536) s.

Definition is_high (c : Z) : bool := (55296 <=? c) && (c <=? 56319).
Definition is_low (c : Z) : bool := (56320 <=? c) && (c <=? 57343).

(** [[...s]]: the string iterator walks code points, so a high surrogate
    followed by a low surrogate is one element of two units. *)
Fixpoint spread (s : str) : list str :=
  match s with
  | [] => []
  | h :: t =>
      match t with
      | l :: t' => if is_high h && is_low l then [h; l] :: spread t' else [h] :: spread t
      | [] => [[h]]
      end
  end.

(** [x.charCodeAt(0)]: the first code unit, NaN ([None]) on the empty string. *)
Definition charCodeAt0 (x : str) : option Z := head x.

(** [String.fromCharCode(n)]: ToUint16 of the number, NaN giving 0. *)
Definition fromCharCode (n : option Z) : str :=
  match n with
  | Some n => [n mod 65536]
  | None => [0]
  end.

(** [key.startsWith(p)] *)
Fixpoint startsWith (p s : str) : bool :=
  match p, s with
  | [], _ => true
  | a :: p', b :: s' => (a =? b) && startsWith p' s'
  | _ :: _, [] => false
  end.

(** ** JS values *)

Inductive outcome (A : Type) : Type :=
  | Ret (a : A)
  | Throw.
Arguments Ret {A} a.
Arguments Throw {A}.

(** The values [set] can be handed: JSON data, plus [undefined] and a BigInt,
    the two ways [JSON.stringify] does not produce a text ([undefined] is
    skipped, a BigInt raises a TypeError). *)
Inductive value : Type :=
  | VUndefined
  | VNull
  | VBool (b : bool)
  | VNum (n : Z)
  | VBigInt (n : Z)
  | VStr (s : str)
  | VArr (l : list value)
  | VObj (l : list (str * value)).

(** [k in o] and [o[k]] on a property list. *)
Fixpoint obj_get (k : str) (l : list (str * value)) : option value :=
  match l with
  | [] => None
  | (k', v) :: r => if decide (k' = k) then Some v else obj_get k r
  end.

Definition obj_has (k : str) (l : list (str * value)) : bool :=
  match obj_get k l with Some _ => true | None => false end.

(** [o[k] = v]: an existing property keeps its place, a new one goes last. *)
Fixpoint obj_put (k : str) (v : value) (l : list (str * value)) : list (str * value) :=
  match l with
  | [] => [(k, v)]
  | (k', v') :: r => if decide (k' = k) then (k, v) :: r else (k', v') :: obj_put k v r
  end.

(** ** JSON.stringify *)

Definition hexdigit (d : Z) : Z := if d <? 10 then 48 + d else 87 + d.

Definition unicode_escape (c : Z) : str :=
  [92; 117; hexdigit (c / 4096); hexdigit (c / 256 mod 16);
   hexdigit (c / 16 mod 16); hexdigit (c mod 16)].

(** QuoteJSONString, one code point at a time: the short escapes, [\uXXXX]
    for the other control characters and for unpaired surrogates, the code
    point itself otherwise. *)
Definition quote_cp (x : str) : str :=
  match x with
  | [c] =>
      if c =? 8 then [92; 98]
      else if c =? 9 then [92; 116]
      else if c =? 10 then [92; 110]
      else if c =? 12 then [92; 102]
      else if c =? 13 then [92; 114]
      else if c =? 34 then [92; 34]
      else if c =? 92 then [92; 92]
      else if (c <? 32) || is_high c || is_low c then unicode_escape c
      else [c]
  | _ => x
  end.

Definition QuoteJSONString (s : str) : str :=
  34 :: concat (map quote_cp (spread s)) ++ [34].

Fixpoint uint_chars (u : Decimal.uint) : str :=
  match u with
  | Decimal.Nil => []
  | Decimal.D0 u => 48 :: uint_chars u
  | Decimal.D1 u => 49 :: uint_chars u
  | Decimal.D2 u => 50 :: uint_chars u
  | Decimal.D3 u => 51 :: uint_chars u
  | Decimal.D4 u => 52 :: uint_chars u
  | Decimal.D5 u => 53 :: uint_chars u
  | Decimal.D6 u => 54 :: uint_chars u
  | Decimal.D7 u => 55 :: uint_chars u
  | Decimal.D8 u => 56 :: uint_chars u
  | Decimal.D9 u => 57 :: uint_chars u
  end.

Definition number_text (n : Z) : str :=
  match Z.to_int n with
  | Decimal.Pos u => uint_chars u
  | Decimal.Neg u => 45 :: uint_chars u
  end.

Fixpoint join (sep : str) (l : list str) : str :=
  match l with
  | [] => []
  | [x] => x
  | x :: r => x ++ sep ++ join sep r
  end.

(** [f] on every element in turn, stopping at the first throw. *)
Definition each {A B : Type} (f : A -> outcome B) : list A -> outcome (list B) :=
  fix go (l : list A) : outcome (list B) :=
    match l with
    | [] => Ret []
    | x :: r =>
        match f x, go r with
        | Ret y, Ret ys => Ret (y :: ys)
        | _, _ => Throw
        end
    end.

(** A property whose value has no text is left out. *)
Definition member_text (m : str * option str) : option str :=
  match m with
  | (k, Some s) => Some (QuoteJSONString k ++ 58 :: s)
  | (_, None) => None
  end.

(** [JSON.stringify(v)]: [Ret None] is the result [undefined], [Throw] the
    TypeError of a BigInt.  Inside an array [undefined] prints as [null];
    a property whose value is [undefined] is left out. *)
Fixpoint stringify (v : value) : outcome (option str) :=
  match v with
  | VUndefined => Ret None
  | VNull => Ret (Some (u16 "null"))
  | VBool true => Ret (Some (u16 "true"))
  | VBool false => Ret (Some (u16 "false"))
  | VNum n => Ret (Some (number_text n))
  | VBigInt _ => Throw
  | VStr s => Ret (Some (QuoteJSONString s))
  | VArr l =>
      match each stringify l with
      | Ret os => Ret (Some (91 :: join [44] (map (default (u16 "null")) os) ++ [93]))
      | Throw => Throw
      end
  | VObj l =>
      match each (fun m => match m with
                           | (k, x) =>
                               match stringify x with
                               | Ret o => Ret (k, o)
                               | Throw => Throw
                               end
                           end) l with
      | Ret ms => Ret (Some (123 :: join [44] (omap member_text ms) ++ [125]))
      | Throw => Throw
      end
  end.

(** ** JSON.parse *)

Definition is_ws (c : Z) : bool := (c =? 32) || (c =? 9) || (c =? 10) || (c =? 13).

Fixpoint skip_ws (s : str) : str :=
  match s with
  | c :: r => if is_ws c then skip_ws r else s
  | [] => []
  end.

Fixpoint strip (p s : str) : option str :=
  match p, s with
  | [], _ => Some s
  | a :: p', b :: s' => if a =? b then strip p' s' else None
  | _ :: _, [] => None
  end.

Definition hexval (c : Z) : option Z :=
  if (48 <=? c) && (c <=? 57) then Some (c - 48)
  else if (97 <=? c) && (c <=? 102) then Some (c - 87)
  else if (65 <=? c) && (c <=? 70) then Some (c - 55)
  else None.

Definition hex4 (a b c d : Z) : option Z :=
  match hexval a, hexval b, hexval c, hexval d with
  | Some a, Some b, Some c, Some d => Some (a * 4096 + b * 256 + c * 16 + d)
  | _, _, _, _ => None
  end.

Definition unescape (e : Z) : option Z :=
  if e =? 34 then Some 34
  else if e =? 92 then Some 92
  else if e =? 47 then Some 47
  else if e =? 98 then Some 8
  else if e =? 102 then Some 12
  else if e =? 110 then Some 10
  else if e =? 114 then Some 13
  else if e =? 116 then Some 9
  else None.

(** The characters of a string literal after its opening quote, up to and
    including the closing quote. *)
Fixpoint parse_chars (s : str) : option (str * str) :=
  match s with
  | [] => None
  | c :: r =>
      if c =? 34 then Some ([], r)
      else if c =? 92 then
        match r with
        | e :: r' =>
            if e =? 117 then
              match r' with
              | h1 :: h2 :: h3 :: h4 :: r'' =>
                  match hex4 h1 h2 h3 h4, parse_chars r'' with
                  | Some u, Some (t, rest) => Some (u :: t, rest)
                  | _, _ => None
                  end
              | _ => None
              end
            else
              match unescape e, parse_chars r' with
              | Some u, Some (t, rest) => Some (u :: t, rest)
              | _, _ => None
              end
        | [] => None
        end
      else if c <? 32 then None
      else
        match parse_chars r with
        | Some (t, rest) => Some (c :: t, rest)
        | None => None
        end
  end.

Definition digit_of (c : Z) : option (Decimal.uint -> Decimal.uint) :=
  if c =? 48 then Some Decimal.D0
  else if c =? 49 then Some Decimal.D1
  else if c =? 50 then Some Decimal.D2
  else if c =? 51 then Some Decimal.D3
  else if c =? 52 then Some Decimal.D4
  else if c =? 53 then Some Decimal.D5
  else if c =? 54 then Some Decimal.D6
  else if c =? 55 then Some Decimal.D7
  else if c =? 56 then Some Decimal.D8
  else if c =? 57 then Some Decimal.D9
  else None.

Fixpoint digits (s : str) : Decimal.uint * str :=
  match s with
  | [] => (Decimal.Nil, [])
  | c :: r =>
      match digit_of c with
      | Some d => let (u, rest) := digits r in (d u, rest)
      | None => (Decimal.Nil, s)
      end
  end.

(** The digits of a number literal: an integer without leading zero.  A
    fraction or an exponent is outside the embedding's numbers. *)
Definition number_of (neg : bool) (s : str) : option (value * str) :=
  let (u, rest) := digits s in
  let ok := match u with
            | Decimal.Nil => false
            | Decimal.D0 Decimal.Nil => true
            | Decimal.D0 _ => false
            | _ => true
            end in
  let more := match rest with
              | c :: _ => (c =? 46) || (c =? 101) || (c =? 69)
              | [] => false
              end in
  if ok && negb more
  then Some (VNum (if neg then - Z.of_uint u else Z.of_uint u), rest)
  else None.

(** A number literal, with its optional minus. *)
Definition parse_number (s : str) : option (value * str) :=
  match s with
  | c :: r => if c =? 45 then number_of true r else number_of false s
  | [] => None
  end.

(** Recursive descent, with fuel spent on every call. *)
Fixpoint parse_value (fuel : nat) (s : str) : option (value * str) :=
  match fuel with
  | O => None
  | S f =>
      match skip_ws s with
      | [] => None
      | c :: r =>
          if c =? 110 then (fun r' => (VNull, r')) <$> strip (u16 "ull") r
          else if c =? 116 then (fun r' => (VBool true, r')) <$> strip (u16 "rue") r
          else if c =? 102 then (fun r' => (VBool false, r')) <$> strip (u16 "alse") r
          else if c =? 34 then
            match parse_chars r with
            | Some (t, rest) => Some (VStr t, rest)
            | None => None
            end
          else if c =? 91 then
            match skip_ws r with
            | c' :: r' =>
                if c' =? 93 then Some (VArr [], r')
                else
                  match parse_elems f r with
                  | Some (vs, rest) => Some (VArr vs, rest)
                  | None => None
                  end
            | [] => None
            end
          else if c =? 123 then
            match skip_ws r with
            | c' :: r' =>
                if c' =? 125 then Some (VObj [], r')
                else
                  match parse_members f r with
                  | Some (ms, rest) =>
                      Some (VObj (fold_left (fun o m => obj_put (fst m) (snd m) o) ms []), rest)
                  | None => None
                  end
            | [] => None
            end
          else parse_number (c :: r)
      end
  end
with parse_elems (fuel : nat) (s : str) : option (list value * str) :=
  match fuel with
  | O => None
  | S f =>
      match parse_value f s with
      | Some (v, r) =>
          match skip_ws r with
          | c :: r' =>
              if c =? 44 then
                match parse_elems f r' with
                | Some (vs, rest) => Some (v :: vs, rest)
                | None => None
                end
              else if c =? 93 then Some ([v], r')
              else None
          | [] => None
          end
      | None => None
      end
  end
with parse_members (fuel : nat) (s : str) : option (list (str * value) * str) :=
  match fuel with
  | O => None
  | S f =>
      match skip_ws s with
      | c :: r =>
          if c =? 34 then
            match parse_chars r with
            | Some (k, r1) =>
                match skip_ws r1 with
                | c1 :: r2 =>
                    if c1 =? 58 then
                      match parse_value f r2 with
                      | Some (v, r3) =>
                          match skip_ws r3 with
                          | c3 :: r4 =>
                              if c3 =? 44 then
                                match parse_members f r4 with
                                | Some (ms, rest) => Some ((k, v) :: ms, rest)
                                | None => None
                                end
                              else if c3 =? 125 then Some ([(k, v)], r4)
                              else None
                          | [] => None
                          end
                      | None => None
                      end
                    else None
                | [] => None
                end
            | None => None
            end
          else None
      | [] => None
      end
  end.

(** [JSON.parse(s)]; [None] is the SyntaxError. *)
Definition JSON_parse (s : str) : option value :=
  match parse_value (S (length s)) s with
  | Some (v, r) => match skip_ws r with [] => Some v | _ :: _ => None end
  | None => None
  end.

(** ** JSON-serializable values *)

Definition wf_strb (s : str) : bool := forallb (fun c => (0 <=? c) && (c <? 65536)) s.

(** The values JSON can express: no [undefined] and no BigInt anywhere,
    strings made of code units, and objects whose keys are distinct. *)
Fixpoint is_json (v : value) : bool :=
  match v with
  | VUndefined | VBigInt _ => false
  | VNull | VBool _ | VNum _ => true
  | VStr s => wf_strb s
  | VArr l => forallb is_json l
  | VObj l =>
      bool_decide (NoDup l.*1)
      && forallb (fun m => match m with (k, x) => wf_strb k && is_json x end) l
  end.

(** The fuel [parse_value] needs to read a value back. *)
Fixpoint weight (v : value) : nat :=
  match v with
  | VArr l => S (list_sum (map (fun x => S (weight x)) l))
  | VObj l => S (list_sum (map (fun m => match m with (_, x) => S (weight x) end) l))
  | _ => 1%nat
  end.

(** What may come after a value inside a text: nothing, a comma or a
    closing bracket. *)
Definition follow (rest : str) : Prop :=
  match rest with
  | [] => True
  | c :: _ => c = 44 \/ c = 93 \/ c = 125
  end.

(** The text of a value that has one. *)
Definition text (v : value) : str :=
  match stringify v with
  | Ret (Some s) => s
  | _ => []
  end.

(** ** Configuration ([LocalStorageConfig]) *)

(** [encrypter(value, secret)] and [decrypter(value, secret)]: a pluggable
    pure function that may throw.  The secret is a number, as [obfus] reads it
    ([key as number]); [None] is [undefined]. *)
Definition Encrypter : Type := value -> option Z -> outcome value.
Definition Decrypter : Type := value -> option Z -> outcome value.

(** What a [ttl] property can hold: a number, [null], or (outside the declared
    type, but accepted by the code) a boolean; [TtlUndefined] is the absent
    property. *)
Inductive ttl_t : Type :=
  | TtlUndefined
  | TtlNull
  | TtlBool (b : bool)
  | TtlNum (n : Z).

Inductive prefix_t : Type :=
  | PfxUndefined
  | PfxNull
  | PfxStr (s : str).

(** A property that is absent is [None] (or the [..Undefined] constructor);
    a property present with the value [undefined] is not distinguished from
    an absent one. *)
Record LocalStorageConfig : Type := {
  ttl : ttl_t;
  encrypt : option bool;
  decrypt : option bool;
  encrypter : option Encrypter;
  decrypter : option Decrypter;
  secret : option Z;
  prefix : prefix_t
}.

(** [{}] *)
Definition no_config : LocalStorageConfig :=
  {| ttl := TtlUndefined; encrypt := None; decrypt := None; encrypter := None;
     decrypter := None; secret := None; prefix := PfxUndefined |}.

Definition ttl_truthy (t : ttl_t) : bool :=
  match t with
  | TtlBool b => b
  | TtlNum n => negb (n =? 0)
  | _ => false
  end.

(** ToNumber; [None] is NaN. *)
Definition ttl_number (t : ttl_t) : option Z :=
  match t with
  | TtlUndefined => None
  | TtlNull => Some 0
  | TtlBool b => Some (if b then 1 else 0)
  | TtlNum n => Some n
  end.

Definition prefix_truthy (p : prefix_t) : bool :=
  match p with
  | PfxStr (_ :: _) => true
  | _ => false
  end.

Definition bool_truthy (b : option bool) : bool := default false b.

(** [localConfig.ttl === null ? null : localConfig.ttl || config.ttl] *)
Definition merge_ttl (config localConfig : LocalStorageConfig) : ttl_t :=
  match ttl localConfig with
  | TtlNull => TtlNull
  | t => if ttl_truthy t then t else ttl config
  end.

(** [localConfig.encrypt === false ? false : localConfig.encrypt || config.encrypt] *)
Definition merge_encrypt (config localConfig : LocalStorageConfig) : option bool :=
  match encrypt localConfig with
  | Some false => Some false
  | e => if bool_truthy e then e else encrypt config
  end.

(** [localConfig.prefix === null ? null : localConfig.prefix || config.prefix] *)
Definition merge_prefix (config localConfig : LocalStorageConfig) : prefix_t :=
  match prefix localConfig with
  | PfxNull => PfxNull
  | p => if prefix_truthy p then p else prefix config
  end.

(** One property of [{...config, ...localConfig}]. *)
Definition override {A : Type} (d l : option A) : option A :=
  match l with
  | Some x => Some x
  | None => d
  end.

(** [_conf] of [set] and [get]. *)
Definition merge (config localConfig : LocalStorageConfig) : LocalStorageConfig :=
  {| ttl := merge_ttl config localConfig;
     encrypt := merge_encrypt config localConfig;
     decrypt := override (decrypt config) (decrypt localConfig);
     encrypter := override (encrypter config) (encrypter localConfig);
     decrypter := override (decrypter config) (decrypter localConfig);
     secret := override (secret config) (secret localConfig);
     prefix := merge_prefix config localConfig |}.

(** ** The obfuscator *)

(** [const APX = String.fromCharCode(0)] *)
Definition APX : str := [0].

Definition num_add (a b : option Z) : option Z :=
  match a, b with
  | Some a, Some b => Some (a + b)
  | _, _ => None
  end.

Definition num_sub (a b : option Z) : option Z :=
  match a, b with
  | Some a, Some b => Some (a - b)
  | _, _ => None
  end.

(** The [charCodeAt(0)] of every element of [[...str]] on the decoding side,
    where [str] is whatever was parsed: a string spreads into code points, an
    array into its elements (only a string element has [charCodeAt]), and
    nothing else is iterable. *)
Definition spread_codes (v : value) : outcome (list (option Z)) :=
  match v with
  | VStr s => Ret (map charCodeAt0 (spread s))
  | VArr l =>
      if forallb (fun x => match x with VStr _ => true | _ => false end) l
      then Ret (map (fun x => match x with VStr e => charCodeAt0 e | _ => None end) l)
      else Throw
  | _ => Throw
  end.

(** [obfus(str, key, encrypt)].  The shift [charCodeAt(0) + key] is computed
    in the integers; the doubles of the code give the same number as long as
    it stays below [2 ^ 53] in magnitude, which the statements about a round
    trip assume of the secret. *)
Definition obfus (v : value) (key : option Z) (enc : bool) : outcome value :=
  if enc then
    match stringify v with
    | Ret (Some s) =>
        Ret (VStr (concat (map (fun x => fromCharCode (num_add (charCodeAt0 x) key)) (spread s))))
    | _ => Throw
    end
  else
    match spread_codes v with
    | Ret cs =>
        match JSON_parse (concat (map (fun c => fromCharCode (num_sub c key)) cs)) with
        | Some r => Ret r
        | None => Throw
        end
    | Throw => Throw
    end.

Definition decrypter0 : Decrypter := fun v key => obfus v key false.

(** The initial global [config]. *)
Definition config : LocalStorageConfig :=
  {| ttl := TtlNull;
     encrypt := Some false;
     decrypt := None;
     encrypter := Some (fun v key => obfus v key true);
     decrypter := Some decrypter0;
     secret := Some 75;
     prefix := PfxNull |}.

(** ** The store and the host *)

(** What the module does not control: whether [localStorage] can be reached,
    and whether [setItem] accepts a write (it throws when the quota is
    exceeded). *)
Record Host : Type := {
  localStorage_ok : bool;
  setItem_ok : gmap str str -> str -> str -> bool
}.

(** The module's state: the memo [hasLS] ([None] while undefined) and the
    contents of [localStorage]. *)
Record World : Type := {
  hasLS : option bool;
  localStorage : gmap str str
}.

(** [Object.keys(localStorage)] *)
Definition keys (st : gmap str str) : list str := (map_to_list st).*1.

(** Modelled from the spec: [isObject] lives in [helpers.ts], which is not
    among the sources; the spec speaks of a wrapper object carrying the
    sentinel field, so [isObject(item)] holds exactly of an object (not of an
    array, [null] or a primitive). *)
Definition isObject (item : value) : bool :=
  match item with
  | VObj _ => true
  | _ => false
  end.

(** [isObject(item) && APX in item] *)
Definition has_sentinel (item : value) : bool :=
  isObject item && match item with VObj l => obj_has APX l | _ => false end.

(** [item[k]] for an own property of an object, [undefined] otherwise. *)
Definition prop (k : str) (item : value) : value :=
  match item with
  | VObj l => default VUndefined (obj_get k l)
  | _ => VUndefined
  end.

(** ToNumber of the right operand of [Date.now() > item.ttl]; [None] is NaN.
    A string, array or object operand goes through ToPrimitive and the
    string-to-number grammar in JS; the embedding does not cover those
    coercions and takes such an operand as NaN. *)
Definition to_number (v : value) : option Z :=
  match v with
  | VNull => Some 0
  | VBool b => Some (if b then 1 else 0)
  | VNum n => Some n
  | _ => None
  end.

(** [Date.now() > item.ttl] *)
Definition expired (now : Z) (item : value) : bool :=
  match to_number (prop (u16 "ttl") item) with
  | Some e => e <? now
  | None => false
  end.

Definition prefix_str (p : prefix_t) : str :=
  match p with
  | PfxStr s => s
  | _ => []
  end.

(** [`${prefix}${key}`] when the prefix is truthy. *)
Definition scoped (p : prefix_t) (key : str) : str :=
  if prefix_truthy p then prefix_str p ++ key else key.

(** The callback of the [forEach] in [flush]. *)
Definition flush_step (p : prefix_t) (now : Z) (force : bool)
    (st : gmap str str) (key : str) : gmap str str :=
  if prefix_truthy p && negb (startsWith (prefix_str p) key) then st
  else
    match st !! key with
    | None | Some [] => st
    | Some s =>
        match JSON_parse s with
        | None => st
        | Some item =>
            if has_sentinel item && (expired now item || force)
            then delete key st
            else st
        end
    end.

Definition flush_keys (p : prefix_t) (now : Z) (force : bool) (st : gmap str str) : gmap str str :=
  fold_left (flush_step p now force) (keys st) st.

(** ** Conditions used by the statements *)

(** No high surrogate is immediately followed by a low one: [[...s]] then
    yields the code units one by one. *)
Definition unpaired (s : str) : bool :=
  forallb (fun x => match x with [_] => true | _ => false end) (spread s).

(** The text [obfus] produces from [s] under the numeric key [k]. *)
Definition shifted (k : Z) (s : str) : str := map (fun c => (c + k) mod 65536) s.

(** The text of one property. *)
Definition member_of (m : str * value) : str := QuoteJSONString m.1 ++ 58 :: text m.2.

(** A digit string as [Z.to_int] produces it. *)
Definition normal (u : Decimal.uint) : Prop :=
  match u with
  | Decimal.Nil => False
  | Decimal.D0 u' => u' = Decimal.Nil
  | _ => True
  end.

(** [parse_value] reads [v] back from its text, whatever follows. *)
Definition reads (v : value) : Prop :=
  forall fuel rest, (weight v <= fuel)%nat -> follow rest ->
    parse_value fuel (text v ++ rest) = Some (v, rest).

(** The override [{ ttl: t }]. *)
Definition with_ttl (t : ttl_t) : LocalStorageConfig :=
  {| ttl := t; encrypt := None; decrypt := None; encrypter := None;
     decrypter := None; secret := None; prefix := PfxUndefined |}.

(** The override [{ prefix: p }]. *)
Definition with_prefix (p : str) : LocalStorageConfig :=
  {| ttl := TtlUndefined; encrypt := None; decrypt := None; encrypter := None;
     decrypter := None; secret := None; prefix := PfxStr p |}.

(** The override [{ encrypt: true, secret: k, ttl: t }]. *)
Definition with_secret (k : Z) (t : ttl_t) : LocalStorageConfig :=
  {| ttl := t; encrypt := Some true; decrypt := None; encrypter := None;
     decrypter := None; secret := Some k; prefix := PfxUndefined |}.

(** The TTL form of a stored entry: [{ [APX]: v, ttl: e }]. *)
Definition wrapper (v : value) (e : Z) : value :=
  VObj [(APX, v); (u16 "ttl", VNum e)].

(** The [ttl] field of [item], if any, is a number, a boolean or [null]:
    [to_number] is then the coercion of the code. *)
Definition plain_ttl (item : value) : bool :=
  match prop (u16 "ttl") item with
  | VStr _ | VArr _ | VObj _ => false
  | _ => true
  end.

(** [key] is within the prefix filter of [flush]. *)
Definition in_scope (p : prefix_t) (key : str) : bool :=
  negb (prefix_truthy p && negb (startsWith (prefix_str p) key)).

(** What [flush] decides for [key], given what the store holds under it. *)
Definition flush_hits (p : prefix_t) (now : Z) (force : bool) (key : str) (o : option str) : bool :=
  in_scope p key &&
  match o with
  | Some s =>
      match JSON_parse s with
      | Some item => has_sentinel item && (expired now item || force)
      | None => false
      end
  | None => false
  end.

(** The characters a JSON value can begin with: [n], [t], [f], a quote, an
    opening bracket or brace, a minus and the digits. *)
Definition value_start (c : Z) : bool :=
  (c =? 110) || (c =? 116) || (c =? 102) || (c =? 34) || (c =? 91) || (c =? 123)
  || (c =? 45) || ((48 <=? c) && (c <=? 57)).

(** What [parse_value], [parse_elems] and [parse_members] read with the fuel
    [f], they read with any fuel that covers the characters consumed. *)
Definition enough_value (f : nat) : Prop :=
  forall s v r, parse_value f s = Some (v, r) ->
    (length r < length s)%nat /\
    forall g, (length s <= g + length r)%nat -> parse_value g s = Some (v, r).

Definition enough_elems (f : nat) : Prop :=
  forall s vs r, parse_elems f s = Some (vs, r) ->
    (length r < length s)%nat /\
    forall g, (length s <= g + length r)%nat -> parse_elems g s = Some (vs, r).

Definition enough_members (f : nat) : Prop :=
  forall s ms r, parse_members f s = Some (ms, r) ->
    (length r < length s)%nat /\
    forall g, (length s <= g + length r)%nat -> parse_members g s = Some (ms, r).

(** ** Sample hosts and states *)

(** A browser whose store is reachable and never full. *)
Definition host_ok : Host :=
  {| localStorage_ok := true; setItem_ok := fun _ _ _ => true |}.

(** A browser whose store is reachable but refuses every write. *)
Definition host_full : Host :=
  {| localStorage_ok := true; setItem_ok := fun _ _ _ => false |}.

(** A [NOOP] that returns [undefined]. *)
Definition noop : Encrypter := fun _ _ => Ret VUndefined.

(** The module just loaded, over an empty store. *)
Definition fresh : World := {| hasLS := None; localStorage := ∅ |}.

(** The module just loaded, over a store that holds one TTL entry under
    the key [old], written with expiry 1000. *)
Definition stale : World :=
  {| hasLS := None;
     localStorage :=
       {[ u16 "old" := text (wrapper (VNum 7) 1000) ]} |}.

(** An application value that is an object with the one key [APX]. *)
Definition tagged : value := VObj [(APX, VNum 1)].

(** A string holding one code point outside the basic plane (U+1F600). *)
Definition smile : value := VStr [55357; 56832].

(** A string of two basic-plane characters (two Hangul syllables) that a
    shift by 4096 turns into a high surrogate followed by a low one. *)
Definition hangul : value := VStr [51200; 52224].

(** The module just loaded, over a store with three entries written at an
    earlier time: a plain one, a TTL entry with expiry 1000 and a TTL entry
    with expiry 9000. *)
Definition three : World :=
  {| hasLS := None;
     localStorage :=
       <[ u16 "plain" := text (VNum 1) ]>
         (<[ u16 "old" := text (wrapper (VNum 7) 1000) ]>
            {[ u16 "new" := text (wrapper (VNum 8) 9000) ]}) |}.

(** An initialised module over a store that holds the text of a string that
    was never obfuscated. *)
Definition legacy : World :=
  {| hasLS := Some true;
     localStorage := {[ u16 "k" := text (VStr (u16 "hello")) ]} |}.


(** The global configuration after [config.ttl = 10]. *)
Definition config10 : LocalStorageConfig :=
  {| ttl := TtlNum 10;
     encrypt := encrypt config;
     decrypt := decrypt config;
     encrypter := encrypter config;
     decrypter := decrypter config;
     secret := secret config;
     prefix := prefix config |}.

(** The store of [three] once the module is initialised: nothing is swept
    behind the caller's back any more. *)
Definition three_ready : World :=
  {| hasLS := Some true; localStorage := localStorage three |}.

(** A browser in which [localStorage] cannot be reached. *)
Definition host_down : Host :=
  {| localStorage_ok := false; setItem_ok := fun _ _ _ => true |}.

(** An initialised module over a store in which other code has put the bare
    word [hello] under the key [k]. *)
Definition foreign : World :=
  {| hasLS := Some true; localStorage := {[ u16 "k" := u16 "hello" ]} |}.

(** ** The operations *)

Section ls.

(** [NOOP] lives in [helpers.ts], which is not among the sources: it is kept
    as a parameter.  [host] is the browser. *)
Variable NOOP : Encrypter.
Variable host : Host.

(** The branch of [supportsLS] taken once [hasLS] is defined. *)
Definition memoised (w : World) : bool * World := (default false (hasLS w), w).

(** [flush], over the availability check [guard] it starts with. *)
Definition flush_with (guard : World -> bool * World) (config : LocalStorageConfig) (now : Z)
    (force : bool) (localConfig : LocalStorageConfig) (w : World) : value * World :=
  let (ok, w1) := guard w in
  if negb ok then (VBool false, w1)
  else
    let p := merge_prefix config localConfig in
    (VUndefined,
     {| hasLS := hasLS w1; localStorage := flush_keys p now force (localStorage w1) |}).

(** [supportsLS]: memoised; the first call probes [localStorage] and runs
    [flush()] once, whose own call of [supportsLS] finds [hasLS] defined. *)
Definition supportsLS (config : LocalStorageConfig) (now : Z) (w : World) : bool * World :=
  match hasLS w with
  | Some b => (b, w)
  | None =>
      let b := localStorage_ok host in
      let w1 := {| hasLS := Some b; localStorage := localStorage w |} in
      let (_, w2) := flush_with memoised config now false no_config w1 in
      (b, w2)
  end.

(** The state [supportsLS] leaves: the one it found when [hasLS] was defined;
    on the first call, the memo set and, the store being reachable, the
    expired TTL entries under the global prefix swept. *)
Definition guarded (config : LocalStorageConfig) (now : Z) (w : World) : World :=
  match hasLS w with
  | Some _ => w
  | None =>
      {| hasLS := Some (localStorage_ok host);
         localStorage :=
           if localStorage_ok host
           then flush_keys (prefix config) now false (localStorage w)
           else localStorage w |}
  end.

Definition flush (config : LocalStorageConfig) (now : Z)
    (force : bool) (localConfig : LocalStorageConfig) (w : World) : value * World :=
  flush_with (supportsLS config now) config now force localConfig w.

(** [hasTTL] of [set]: [_conf.ttl && !isNaN(_conf.ttl) && _conf.ttl > 0] *)
Definition hasTTL (t : ttl_t) : bool :=
  ttl_truthy t && match ttl_number t with Some n => 0 <? n | None => false end.

(** The body of the [try] of [set] up to the text handed to [setItem].  The
    expiry [now + ttl * 1000] is computed in the integers; the doubles of the
    code give the same number as long as it stays below [2 ^ 53], which the
    statements about a stored expiry assume. *)
Definition encode (conf : LocalStorageConfig) (now : Z) (v : value) : outcome (option str) :=
  let enc := default NOOP (encrypter conf) in
  if hasTTL (ttl conf) then
    let expiry := now + default 0 (ttl_number (ttl conf)) * 1000 in
    let val := [(APX, v); (u16 "ttl", VNum expiry)] in
    if bool_truthy (encrypt conf) then
      match enc v (secret conf) with
      | Ret c => stringify (VObj (obj_put APX c val))
      | Throw => Throw
      end
    else stringify (VObj val)
  else
    if bool_truthy (encrypt conf) then
      match enc v (secret conf) with
      | Ret c => stringify c
      | Throw => Throw
      end
    else stringify v.

(** [set(key, value, localConfig)]: [false] when the store is unavailable or
    the [try] block throws, [undefined] otherwise. *)
Definition set (config : LocalStorageConfig) (now : Z)
    (key : str) (v : value) (localConfig : LocalStorageConfig) (w : World) : value * World :=
  let (ok, w1) := supportsLS config now w in
  if negb ok then (VBool false, w1)
  else
    let conf := merge config localConfig in
    match encode conf now v with
    | Throw => (VBool false, w1)
    | Ret o =>
        let text := default (u16 "undefined") o in
        let k := scoped (prefix conf) key in
        if setItem_ok host (localStorage w1) k text
        then (VUndefined, {| hasLS := hasLS w1; localStorage := <[k := text]> (localStorage w1) |})
        else (VBool false, w1)
    end.

(** The [try] block of [get]: de-obfuscate the sentinel field of a TTL entry,
    or the whole item; a throw leaves the item as it was. *)
Definition decode (conf : LocalStorageConfig) (item : value) : value :=
  let dec := default NOOP (decrypter conf) in
  if bool_truthy (decrypt conf) || bool_truthy (encrypt conf) then
    if has_sentinel item then
      match dec (prop APX item) (secret conf), item with
      | Ret p, VObj l => VObj (obj_put APX p l)
      | _, _ => item
      end
    else
      match dec item (secret conf) with
      | Ret p => p
      | Throw => item
      end
  else item.

(** [get(key, localConfig)]; the [Throw] is the SyntaxError of the unguarded
    [JSON.parse]. *)
Definition get (config : LocalStorageConfig) (now : Z)
    (key : str) (localConfig : LocalStorageConfig) (w : World) : outcome value * World :=
  let (ok, w1) := supportsLS config now w in
  if negb ok then (Ret VNull, w1)
  else
    let conf := merge config localConfig in
    let k := scoped (prefix conf) key in
    match localStorage w1 !! k with
    | None | Some [] => (Ret VNull, w1)
    | Some s =>
        match JSON_parse s with
        | None => (Throw, w1)
        | Some item0 =>
            let item := decode conf item0 in
            if negb (has_sentinel item0) then (Ret item, w1)
            else if expired now item
            then (Ret VNull, {| hasLS := hasLS w1; localStorage := delete k (localStorage w1) |})
            else (Ret (prop APX item), w1)
        end
    end.

(** [remove(key, localConfig)] *)
Definition remove (config : LocalStorageConfig) (now : Z)
    (key : str) (localConfig : LocalStorageConfig) (w : World) : value * World :=
  let (ok, w1) := supportsLS config now w in
  if negb ok then (VBool false, w1)
  else
    let k := scoped (merge_prefix config localConfig) key in
    (VUndefined, {| hasLS := hasLS w1; localStorage := delete k (localStorage w1) |}).

(** [clear(localConfig)] *)
Definition clear (config : LocalStorageConfig) (now : Z)
    (localConfig : LocalStorageConfig) (w : World) : value * World :=
  let (ok, w1) := supportsLS config now w in
  if negb ok then (VBool false, w1)
  else
    let p := merge_prefix config localConfig in
    let st := localStorage w1 in
    (VUndefined,
     {| hasLS := hasLS w1;
        localStorage :=
          if prefix_truthy p
          then fold_left (fun st key => if startsWith (prefix_str p) key then delete key st else st)
                 (keys st) st
          else ∅ |}).



(** ** JSON: a serializable value is read back from its text *)

Lemma skip_ws_head c r : is_ws c = false -> skip_ws (c :: r) = c :: r.
Proof. intros H. simpl. by rewrite H. Qed.

Lemma to_uint_head p :
  match Pos.to_uint p with Decimal.Nil | Decimal.D0 _ => False | _ => True end.
Proof.
  pose proof (DecimalPos.Unsigned.to_uint_nonnil p) as Hnil.
  pose proof (DecimalPos.Unsigned.to_uint_nonzero p) as Hz.
  pose proof (DecimalPos.Unsigned.to_of (Pos.to_uint p)) as Hn.
  rewrite DecimalPos.Unsigned.of_to in Hn. simpl in Hn.
  destruct (Pos.to_uint p) as [|u|u|u|u|u|u|u|u|u|u] eqn:E; try exact I; [congruence|].
  unfold Decimal.unorm in Hn.
  pose proof (nzhead_nonzero (Decimal.D0 u)) as Hh.
  destruct (Decimal.nzhead (Decimal.D0 u)); try discriminate.
  - congruence.
  - by destruct (Hh u0).
Qed.

Lemma digit_of_follow c r : follow (c :: r) -> digit_of c = None.
Proof. simpl. unfold digit_of. intros [-> | [-> | ->]]; reflexivity. Qed.

Lemma digits_chars u rest :
  match rest with c :: _ => digit_of c = None | [] => True end ->
  digits (uint_chars u ++ rest) = (u, rest).
Proof.
  intros H. induction u; simpl; try (by rewrite IHu).
  destruct rest; [done|]. simpl. by rewrite H.
Qed.

Lemma number_of_chars neg u rest :
  follow rest -> normal u ->
  number_of neg (uint_chars u ++ rest)
  = Some (VNum (if neg then - Z.of_uint u else Z.of_uint u), rest).
Proof.
  intros Hf Hn. unfold number_of. rewrite digits_chars.
  2:{ destruct rest; [done|]. by eapply digit_of_follow. }
  assert (Hm : match rest with c :: _ => (c =? 46) || (c =? 101) || (c =? 69) | [] => false end = false).
  { destruct rest; [done|]. destruct Hf as [-> | [-> | ->]]; reflexivity. }
  rewrite Hm. destruct u; simpl in Hn; try done. by subst.
Qed.

Lemma parse_number_text n rest :
  follow rest -> parse_number (number_text n ++ rest) = Some (VNum n, rest).
Proof.
  intros Hf. unfold number_text. destruct n as [|p|p]; simpl Z.to_int; cbv iota.
  - apply (number_of_chars false (Decimal.D0 Decimal.Nil)); done.
  - pose proof (to_uint_head p) as Hh. pose proof (DecimalPos.Unsigned.of_to p) as Ho.
    assert (Hn : normal (Pos.to_uint p)) by (destruct (Pos.to_uint p); done).
    pose proof (number_of_chars false _ rest Hf Hn) as Hp.
    unfold Z.of_uint in Hp. rewrite Ho in Hp. simpl in Hp. rewrite <- Hp.
    destruct (Pos.to_uint p); try done.
  - pose proof (to_uint_head p) as Hh. pose proof (DecimalPos.Unsigned.of_to p) as Ho.
    assert (Hn : normal (Pos.to_uint p)) by (destruct (Pos.to_uint p); done).
    pose proof (number_of_chars true _ rest Hf Hn) as Hp.
    unfold Z.of_uint in Hp. rewrite Ho in Hp. change (- Z.of_N (N.pos p)) with (Z.neg p) in Hp.
    rewrite <- Hp. done.
Qed.

(** Strings *)
Lemma spread_ind (P : str -> Prop) :
  P [] ->
  (forall h, P [h]) ->
  (forall h l t, is_high h && is_low l = true -> P t -> P (h :: l :: t)) ->
  (forall h l t, is_high h && is_low l = false -> P (l :: t) -> P (h :: l :: t)) ->
  forall s, P s.
Proof.
  intros H0 H1 H2 H3 s.
  assert (H : forall n s, (length s <= n)%nat -> P s).
  { clear s. induction n as [|n IH]; intros [|h [|l t]] Hl; simpl in Hl; try done; try lia.
    destruct (is_high h && is_low l) eqn:E.
    - apply H2; [done|]. apply IH. lia.
    - apply H3; [done|]. apply IH. simpl. lia. }
  by apply (H (length s)).
Qed.

Lemma spread_cons2 h l t :
  spread (h :: l :: t)
  = if is_high h && is_low l then [h; l] :: spread t else [h] :: spread (l :: t).
Proof. reflexivity. Qed.

Lemma hexval_hexdigit d : 0 <= d < 16 -> hexval (hexdigit d) = Some d.
Proof.
  intros H.
  assert (d = 0 \/ d = 1 \/ d = 2 \/ d = 3 \/ d = 4 \/ d = 5 \/ d = 6 \/ d = 7 \/ d = 8
          \/ d = 9 \/ d = 10 \/ d = 11 \/ d = 12 \/ d = 13 \/ d = 14 \/ d = 15) as Hd by lia.
  repeat (destruct Hd as [-> | Hd]; [reflexivity|]). by subst.
Qed.

Lemma hex4_escape c :
  0 <= c < 65536 ->
  hex4 (hexdigit (c / 4096)) (hexdigit (c / 256 mod 16))
       (hexdigit (c / 16 mod 16)) (hexdigit (c mod 16)) = Some c.
Proof.
  intros H. unfold hex4.
  assert (H1 : c / 16 / 16 = c / 256) by (rewrite Z.div_div by lia; done).
  assert (H2 : c / 256 / 16 = c / 4096) by (rewrite Z.div_div by lia; done).
  pose proof (Z.div_mod c 16 ltac:(lia)) as E0.
  pose proof (Z.div_mod (c / 16) 16 ltac:(lia)) as E1.
  pose proof (Z.div_mod (c / 256) 16 ltac:(lia)) as E2.
  rewrite H1 in E1. rewrite H2 in E2.
  pose proof (Z.mod_pos_bound c 16 ltac:(lia)).
  pose proof (Z.mod_pos_bound (c / 16) 16 ltac:(lia)).
  pose proof (Z.mod_pos_bound (c / 256) 16 ltac:(lia)).
  assert (0 <= c / 4096 < 16).
  { split; [apply Z.div_pos; lia | apply Z.div_lt_upper_bound; lia]. }
  rewrite !hexval_hexdigit by done.
  f_equal. lia.
Qed.

Lemma parse_chars_cp h X :
  0 <= h < 65536 ->
  parse_chars (quote_cp [h] ++ X)
  = match parse_chars X with Some (t, r) => Some (h :: t, r) | None => None end.
Proof.
  intros Hh. unfold quote_cp.
  destruct (Z.eqb_spec h 8) as [-> | H8]; [done|].
  destruct (Z.eqb_spec h 9) as [-> | H9]; [done|].
  destruct (Z.eqb_spec h 10) as [-> | H10]; [done|].
  destruct (Z.eqb_spec h 12) as [-> | H12]; [done|].
  destruct (Z.eqb_spec h 13) as [-> | H13]; [done|].
  destruct (Z.eqb_spec h 34) as [-> | H34]; [done|].
  destruct (Z.eqb_spec h 92) as [-> | H92]; [done|].
  destruct ((h <? 32) || is_high h || is_low h) eqn:E.
  - unfold unicode_escape. cbn [app parse_chars]. 
    change (92 =? 34) with false. change (92 =? 92) with true. change (117 =? 117) with true.
    cbv iota. by rewrite hex4_escape.
  - apply orb_false_iff in E as [E _]. apply orb_false_iff in E as [E _].
    cbn [app parse_chars].
    destruct (Z.eqb_spec h 34); [done|]. destruct (Z.eqb_spec h 92); [done|].
    by rewrite E.
Qed.

Lemma parse_chars_quote s rest :
  wf_str s ->
  parse_chars (concat (map quote_cp (spread s)) ++ 34 :: rest) = Some (s, rest).
Proof.
  induction s as [|h|h l t E IH|h l t E IH] using spread_ind; intros Hw.
  - done.
  - cbn [spread map concat]. rewrite app_nil_r.
    rewrite parse_chars_cp by (by inversion Hw). done.
  - rewrite spread_cons2, E. cbn [map concat quote_cp].
    inversion Hw as [|? ? Hh Hw']; subst. inversion Hw' as [|? ? Hl Hw'']; subst.
    apply andb_true_iff in E as [E1 E2]. unfold is_high, is_low in *.
    cbn [app parse_chars].
    destruct (Z.eqb_spec h 34); [lia|]. destruct (Z.eqb_spec h 92); [lia|].
    destruct (Z.ltb_spec h 32); [lia|].
    destruct (Z.eqb_spec l 34); [lia|]. destruct (Z.eqb_spec l 92); [lia|].
    destruct (Z.ltb_spec l 32); [lia|].
    by rewrite IH.
  - rewrite spread_cons2, E. cbn [map concat]. rewrite <- app_assoc.
    inversion Hw as [|? ? Hh Hw']; subst.
    rewrite parse_chars_cp by done. by rewrite IH.
Qed.

Lemma parse_chars_QuoteJSONString s rest :
  wf_str s -> exists q, QuoteJSONString s ++ rest = 34 :: q /\ parse_chars q = Some (s, rest).
Proof.
  intros Hw. unfold QuoteJSONString.
  exists (concat (map quote_cp (spread s)) ++ 34 :: rest). split.
  - simpl. by rewrite <- app_assoc.
  - by apply parse_chars_quote.
Qed.

(** Values *)
Lemma value_ind' (P : value -> Prop) :
  P VUndefined -> P VNull -> (forall b, P (VBool b)) -> (forall n, P (VNum n)) ->
  (forall n, P (VBigInt n)) -> (forall s, P (VStr s)) ->
  (forall l, Forall P l -> P (VArr l)) ->
  (forall l, Forall (fun m => P m.2) l -> P (VObj l)) ->
  forall v, P v.
Proof.
  intros Hu Hn Hb Hz Hg Hs Ha Ho. fix IH 1.
  intros [| |b|n|n|s|l|l]; [exact Hu | exact Hn | apply Hb | apply Hz | apply Hg | apply Hs | |].
  - apply Ha. induction l as [|x l IHl]; constructor; [apply IH | exact IHl].
  - apply Ho. induction l as [|[k x] l IHl]; constructor; [apply IH | exact IHl].
Qed.

Lemma wf_strb_spec s : wf_strb s = true -> wf_str s.
Proof.
  unfold wf_strb, wf_str. rewrite forallb_forall, Forall_forall.
  intros H c Hc. apply list_elem_of_In in Hc. specialize (H c Hc). lia.
Qed.

(** A serializable value has a text. *)
Lemma each_json (l : list value) :
  Forall (fun x => is_json x = true -> stringify x = Ret (Some (text x))) l ->
  forallb is_json l = true ->
  each stringify l = Ret (map (fun x => Some (text x)) l).
Proof.
  induction 1 as [|x l Hx _ IH]; intros Hj; [done|].
  simpl in Hj. apply andb_true_iff in Hj as [Hj1 Hj2].
  cbn [each map]. fold (each stringify). rewrite (Hx Hj1), (IH Hj2). done.
Qed.

Lemma each_json_members (l : list (str * value)) :
  Forall (fun m => is_json m.2 = true -> stringify m.2 = Ret (Some (text m.2))) l ->
  forallb (fun m => match m with (k, x) => wf_strb k && is_json x end) l = true ->
  each (fun m => match m with
                 | (k, x) => match stringify x with Ret o => Ret (k, o) | Throw => Throw end
                 end) l
  = Ret (map (fun m => (m.1, Some (text m.2))) l).
Proof.
  induction 1 as [|[k x] l Hx _ IH]; intros Hj; [done|].
  simpl in Hj. apply andb_true_iff in Hj as [Hj1 Hj2]. apply andb_true_iff in Hj1 as [_ Hj1].
  cbn [each map]. 
  match goal with |- context [each ?f l] => fold (each f) end.
  simpl in Hx. rewrite (Hx Hj1), (IH Hj2). done.
Qed.

Lemma omap_member_text (l : list (str * value)) :
  omap member_text (map (fun m => (m.1, Some (text m.2))) l) = map member_of l.
Proof. induction l as [|[k x] l IH]; [done|]. csimpl. by rewrite IH. Qed.

Lemma stringify_json v : is_json v = true -> stringify v = Ret (Some (text v)).
Proof.
  induction v as [| |b|n|n|s|l IH|l IH] using value_ind'; intros Hj; try done.
  - by destruct b.
  - unfold text. simpl in Hj. cbn [stringify]. by rewrite (each_json l IH Hj).
  - unfold text. simpl in Hj. apply andb_true_iff in Hj as [_ Hj].
    cbn [stringify]. by rewrite (each_json_members l IH Hj).
Qed.

Lemma text_arr l :
  forallb is_json l = true -> text (VArr l) = 91 :: join [44] (map text l) ++ [93].
Proof.
  intros Hj. unfold text at 1. cbn [stringify].
  rewrite each_json; [|apply Forall_forall; intros; by apply stringify_json|done].
  by rewrite map_map.
Qed.

Lemma text_obj l :
  forallb (fun m => match m with (k, x) => wf_strb k && is_json x end) l = true ->
  text (VObj l) = 123 :: join [44] (map member_of l) ++ [125].
Proof.
  intros Hj. unfold text at 1. cbn [stringify].
  rewrite each_json_members; [|apply Forall_forall; intros; by apply stringify_json|done].
  by rewrite omap_member_text.
Qed.

Local Arguments parse_number : simpl never.
Local Arguments number_text : simpl never.
Local Arguments QuoteJSONString : simpl never.

Lemma number_text_head n :
  exists c r, number_text n = c :: r /\
    (c = 45 \/ c = 48 \/ c = 49 \/ c = 50 \/ c = 51 \/ c = 52 \/ c = 53 \/ c = 54
     \/ c = 55 \/ c = 56 \/ c = 57).
Proof.
  unfold number_text. destruct n as [|p|p]; simpl Z.to_int; cbv iota.
  - exists 48, []. split; [done|]. lia.
  - pose proof (to_uint_head p). destruct (Pos.to_uint p); try done;
      simpl; eexists _, _; (split; [reflexivity|]); lia.
  - eexists _, _; (split; [reflexivity|]); lia.
Qed.

Lemma text_head v :
  is_json v = true -> exists c r, text v = c :: r /\ is_ws c = false /\ c <> 93.
Proof.
  intros Hj. destruct v as [| |b|n|n|s|l|l]; try done.
  - by exists 110, (u16 "ull").
  - destruct b; [by exists 116, (u16 "rue") | by exists 102, (u16 "alse")].
  - destruct (number_text_head n) as (c & r & E & Hc). exists c, r. split; [done|].
    repeat (destruct Hc as [-> | Hc]; [done|]). by subst.
  - eexists 34, _. split; [reflexivity|]. done.
  - simpl in Hj. rewrite text_arr by done. by eexists 91, _.
  - simpl in Hj. apply andb_true_iff in Hj as [_ Hj]. rewrite text_obj by done. by eexists 123, _.
Qed.

Lemma parse_value_number f n rest :
  follow rest -> parse_value (S f) (number_text n ++ rest) = Some (VNum n, rest).
Proof.
  intros Hf. pose proof (parse_number_text n rest Hf) as Hp.
  destruct (number_text_head n) as (c & r & E & Hc). rewrite E in *.
  repeat (destruct Hc as [-> | Hc]; [exact Hp|]). subst. exact Hp.
Qed.

Lemma parse_elems_text l :
  l <> [] -> forallb is_json l = true -> Forall reads l ->
  forall fuel rest, (list_sum (map (fun x => S (weight x)) l) <= fuel)%nat ->
    parse_elems fuel (join [44] (map text l) ++ 93 :: rest) = Some (l, rest).
Proof.
  intros Hne Hj Hr. induction Hr as [|x l Hx Hl IH]; [done|].
  intros fuel rest Hw. simpl in Hj. apply andb_true_iff in Hj as [Hj1 Hj2].
  cbn [map list_sum foldr] in Hw. destruct fuel as [|f]; [lia|].
  destruct l as [|y l'].
  - cbn [map join parse_elems]. rewrite Hx; [|simpl in Hw; lia|simpl; auto].
    reflexivity.
  - assert (E : join [44] (map text (x :: y :: l')) ++ 93 :: rest
               = text x ++ 44 :: (join [44] (map text (y :: l')) ++ 93 :: rest)).
    { cbn [map join]. rewrite <- !app_assoc. reflexivity. }
    rewrite E. cbn [parse_elems]. rewrite Hx; [|simpl in Hw; clear -Hw; lia|simpl; auto].
    cbn [skip_ws]. change (is_ws 44) with false. cbv iota.
    change (44 =? 44) with true. cbv iota.
    rewrite IH; [done|done|done|unfold list_sum in *; simpl in Hw |- *; lia].
Qed.

Lemma parse_members_text l :
  l <> [] -> forallb (fun m => match m with (k, x) => wf_strb k && is_json x end) l = true ->
  Forall (fun m => reads m.2) l ->
  forall fuel rest,
    (list_sum (map (fun m => match m with (_, x) => S (weight x) end) l) <= fuel)%nat ->
    parse_members fuel (join [44] (map member_of l) ++ 125 :: rest) = Some (l, rest).
Proof.
  intros Hne Hj Hr. induction Hr as [|[k x] l Hx Hl IH]; [done|].
  intros fuel rest Hw. simpl in Hj. apply andb_true_iff in Hj as [Hj1 Hj2].
  apply andb_true_iff in Hj1 as [Hk Hj1]. apply wf_strb_spec in Hk.
  cbn [map list_sum foldr] in Hw. destruct fuel as [|f]; [lia|]. simpl in Hx.
  destruct l as [|[ky vy] l'].
  - cbn [map join]. unfold member_of at 1. cbn [fst snd]. rewrite <- app_assoc.
    destruct (parse_chars_QuoteJSONString k ((58 :: text x) ++ 125 :: rest) Hk) as (q & -> & Hq).
    cbn [parse_members skip_ws]. change (is_ws 34) with false. cbv iota.
    change (34 =? 34) with true. cbv iota. rewrite Hq.
    cbn [app skip_ws]. change (is_ws 58) with false. cbv iota.
    change (58 =? 58) with true. cbv iota.
    rewrite Hx; [|simpl in Hw; lia|simpl; auto]. reflexivity.
  - assert (E : join [44] (map member_of ((k, x) :: (ky, vy) :: l')) ++ 125 :: rest
               = QuoteJSONString k ++ (58 :: text x ++ 44 :: (join [44] (map member_of ((ky, vy) :: l')) ++ 125 :: rest))).
    { cbn [map join]. unfold member_of at 1. cbn [fst snd]. rewrite <- !app_assoc. reflexivity. }
    rewrite E. clear E.
    remember (58 :: text x ++ 44 :: (join [44] (map member_of ((ky, vy) :: l')) ++ 125 :: rest)) as tl eqn:Etl.
    destruct (parse_chars_QuoteJSONString k tl Hk) as (q & -> & Hq). subst tl.
    cbn [parse_members skip_ws]. change (is_ws 34) with false. cbv iota.
    change (34 =? 34) with true. cbv iota. rewrite Hq.
    cbn [skip_ws]. change (is_ws 58) with false. cbv iota.
    change (58 =? 58) with true. cbv iota.
    rewrite Hx; [|simpl in Hw; lia|simpl; auto].
    cbn [skip_ws]. change (is_ws 44) with false. cbv iota.
    change (44 =? 44) with true. cbv iota.
    rewrite IH; [done|done|done|unfold list_sum in *; simpl in Hw |- *; lia].
Qed.

Lemma obj_put_fresh k v (l : list (str * value)) :
  k ∉ l.*1 -> obj_put k v l = l ++ [(k, v)].
Proof.
  induction l as [|[k' v'] l IH]; intros Hk; [done|].
  simpl. rewrite fmap_cons, not_elem_of_cons in Hk. destruct Hk as [Hne Hk].
  destruct (decide (k' = k)) as [->|_]; [done|]. by rewrite IH.
Qed.

Lemma fold_obj_put (l acc : list (str * value)) :
  NoDup (acc.*1 ++ l.*1) ->
  fold_left (fun o m => obj_put m.1 m.2 o) l acc = acc ++ l.
Proof.
  revert acc. induction l as [|[k v] l IH]; intros acc Hn; [by rewrite app_nil_r|].
  cbn [fold_left fst snd]. rewrite fmap_cons in Hn.
  rewrite obj_put_fresh.
  - rewrite IH; [by rewrite <- app_assoc|].
    rewrite fmap_app. cbn. rewrite <- app_assoc. exact Hn.
  - apply NoDup_app in Hn as (_ & Hn & _). intros Hin. apply (Hn k Hin). left.
Qed.

Lemma parse_text v : is_json v = true -> reads v.
Proof.
  induction v as [| |b|n|n|s|l IH|l IH] using value_ind'; intros Hj; try done;
    intros fuel rest Hw Hf; (destruct fuel as [|f]; [simpl in Hw; lia|]).
  - reflexivity.
  - by destruct b.
  - by apply parse_value_number.
  - simpl in Hj. apply wf_strb_spec in Hj.
    destruct (parse_chars_QuoteJSONString s rest Hj) as (q & E & Hq).
    change (text (VStr s)) with (QuoteJSONString s). rewrite E.
    cbn [parse_value skip_ws]. change (is_ws 34) with false. cbv iota.
    change (34 =? 110) with false. change (34 =? 116) with false.
    change (34 =? 102) with false. change (34 =? 34) with true. cbv iota.
    by rewrite Hq.
  - simpl in Hj. rewrite text_arr by done. destruct l as [|x l']; [reflexivity|].
    assert (Hr : Forall reads (x :: l')).
    { apply Forall_forall. intros y Hy. rewrite Forall_forall in IH. apply IH; [done|].
      rewrite forallb_forall in Hj. apply Hj. by apply list_elem_of_In. }
    pose proof (parse_elems_text (x :: l') ltac:(done) Hj Hr f rest) as Hp.
    cbn [weight] in Hw. specialize (Hp ltac:(lia)).
    assert (Hjx : is_json x = true) by (simpl in Hj; by apply andb_true_iff in Hj as [? _]).
    destruct (text_head x Hjx) as (c & r & Ec & Hc & H93).
    assert (E : (91 :: join [44] (map text (x :: l')) ++ [93]) ++ rest
                = 91 :: c :: (r ++ match l' with [] => [] | _ => 44 :: join [44] (map text l') end ++ 93 :: rest)).
    { cbn [map join]. rewrite Ec. destruct l'; simpl; rewrite <- ?app_assoc; reflexivity. }
    assert (E' : join [44] (map text (x :: l')) ++ 93 :: rest
                = c :: (r ++ match l' with [] => [] | _ => 44 :: join [44] (map text l') end ++ 93 :: rest)).
    { cbn [map join]. rewrite Ec. destruct l'; simpl; rewrite <- ?app_assoc; reflexivity. }
    rewrite E. rewrite E' in Hp.
    cbn [parse_value skip_ws]. change (is_ws 91) with false. cbv iota.
    change (91 =? 110) with false. change (91 =? 116) with false.
    change (91 =? 102) with false. change (91 =? 34) with false. change (91 =? 91) with true.
    cbv iota. rewrite (skip_ws_head c _ Hc). destruct (Z.eqb_spec c 93); [done|]. by rewrite Hp.
  - simpl in Hj. apply andb_true_iff in Hj as [Hnd Hj]. apply bool_decide_eq_true in Hnd.
    rewrite text_obj by done. destruct l as [|[k x] l']; [reflexivity|].
    assert (Hr : Forall (fun m => reads m.2) ((k, x) :: l')).
    { apply Forall_forall. intros [k' y] Hy. rewrite Forall_forall in IH. apply (IH _ Hy).
      rewrite forallb_forall in Hj. apply list_elem_of_In in Hy. specialize (Hj _ Hy).
      simpl in Hj. by apply andb_true_iff in Hj as [_ ?]. }
    pose proof (parse_members_text ((k, x) :: l') ltac:(done) Hj Hr f rest) as Hp.
    cbn [weight] in Hw. specialize (Hp ltac:(lia)).
    assert (E : exists q, join [44] (map member_of ((k, x) :: l')) ++ 125 :: rest = 34 :: q).
    { cbn [map join]. unfold member_of at 1, QuoteJSONString. destruct l'; simpl; eauto. }
    destruct E as (q & E).
    change ((123 :: join [44] (map member_of ((k, x) :: l')) ++ [125]) ++ rest)
      with (123 :: ((join [44] (map member_of ((k, x) :: l')) ++ [125]) ++ rest)).
    rewrite <- app_assoc. change ([125] ++ rest) with (125 :: rest). rewrite E in *.
    cbn [parse_value skip_ws]. change (is_ws 123) with false. cbv iota.
    change (123 =? 110) with false. change (123 =? 116) with false.
    change (123 =? 102) with false. change (123 =? 34) with false. change (123 =? 91) with false.
    change (123 =? 123) with true. change (is_ws 34) with false. cbv iota.
    change (34 =? 125) with false. cbv iota. rewrite Hp.
    rewrite fold_obj_put; [done|]. simpl. exact Hnd.
Qed.

Lemma join_length_elems (l : list value) :
  Forall (fun x => (weight x <= length (text x))%nat) l ->
  (list_sum (map (fun x => S (weight x)) l) <= S (length (join [44%Z] (map text l))))%nat.
Proof.
  unfold list_sum. induction 1 as [|x l Hx _ IH]; [simpl; lia|].
  destruct l as [|y l']; [simpl; lia|].
  change (join [44] (map text (x :: y :: l')))
    with (text x ++ [44] ++ join [44] (map text (y :: l'))).
  rewrite !length_app. simpl in IH |- *. lia.
Qed.

Lemma join_length_members (l : list (str * value)) :
  Forall (fun m => (weight m.2 <= length (text m.2))%nat) l ->
  (list_sum (map (fun m => match m with (_, x) => S (weight x) end) l)
   <= S (length (join [44%Z] (map member_of l))))%nat.
Proof.
  unfold list_sum. induction 1 as [|[k x] l Hx _ IH]; [simpl; lia|].
  assert (Hm : (weight x <= length (member_of (k, x)))%nat).
  { unfold member_of. rewrite length_app. simpl in Hx |- *. lia. }
  destruct l as [|[ky y] l']; [cbn [map foldr join]; lia|].
  change (join [44] (map member_of ((k, x) :: (ky, y) :: l')))
    with (member_of (k, x) ++ [44] ++ join [44] (map member_of ((ky, y) :: l'))).
  rewrite !length_app. cbn [map foldr length app] in IH |- *. lia.
Qed.

Lemma weight_le_text v : is_json v = true -> (weight v <= length (text v))%nat.
Proof.
  induction v as [| |b|n|n|s|l IH|l IH] using value_ind'; intros Hj; try done.
  - simpl. lia.
  - destruct b; simpl; lia.
  - destruct (number_text_head n) as (c & r & E & _).
    change (text (VNum n)) with (number_text n). rewrite E. simpl. lia.
  - change (text (VStr s)) with (QuoteJSONString s). unfold QuoteJSONString. simpl. lia.
  - simpl in Hj. rewrite text_arr by done. cbn [weight].
    assert (H : Forall (fun x => (weight x <= length (text x))%nat) l).
    { apply Forall_forall. intros y Hy. rewrite Forall_forall in IH. apply IH; [done|].
      rewrite forallb_forall in Hj. apply Hj. by apply list_elem_of_In. }
    pose proof (join_length_elems l H). simpl. rewrite length_app. simpl. lia.
  - simpl in Hj. apply andb_true_iff in Hj as [_ Hj]. rewrite text_obj by done. cbn [weight].
    assert (H : Forall (fun m => (weight m.2 <= length (text m.2))%nat) l).
    { apply Forall_forall. intros [k' y] Hy. rewrite Forall_forall in IH. apply (IH _ Hy).
      rewrite forallb_forall in Hj. apply list_elem_of_In in Hy. specialize (Hj _ Hy).
      simpl in Hj. by apply andb_true_iff in Hj as [_ ?]. }
    pose proof (join_length_members l H). simpl. rewrite length_app. simpl. lia.
Qed.

(** [JSON.parse(JSON.stringify(v))] gives [v] back. *)
Lemma JSON_parse_text v : is_json v = true -> JSON_parse (text v) = Some v.
Proof.
  intros Hj. unfold JSON_parse.
  pose proof (parse_text v Hj (S (length (text v))) []) as H.
  rewrite app_nil_r in H. rewrite H; [done| |done].
  pose proof (weight_le_text v Hj). lia.
Qed.

(** ** JSON: the fuel of [JSON_parse] is always enough *)

Lemma skip_ws_length s : (length (skip_ws s) <= length s)%nat.
Proof. induction s as [|c s IH]; simpl; [lia|]. destruct (is_ws c); simpl; lia. Qed.

Lemma strip_length p s r : strip p s = Some r -> (length r <= length s)%nat.
Proof.
  revert s. induction p as [|a p IH]; intros [|b s] H; simpl in H; simplify_eq; simpl; try lia.
  destruct (a =? b); [|done]. apply IH in H. lia.
Qed.

Lemma parse_chars_length s t r : parse_chars s = Some (t, r) -> (length r < length s)%nat.
Proof.
  remember (length s) as n eqn:En. revert s En t r.
  induction n as [n IH] using lt_wf_ind. intros s -> t r H.
  destruct s as [|c s]; [done|]. simpl in H.
  destruct (c =? 34); [simplify_eq; simpl; lia|].
  destruct (c =? 92).
  - destruct s as [|e s]; [done|]. destruct (e =? 117).
    + destruct s as [|h1 [|h2 [|h3 [|h4 s]]]]; try done.
      destruct (hex4 h1 h2 h3 h4); [|done].
      destruct (parse_chars s) as [[t' r']|] eqn:E; [|done]. simplify_eq.
      pose proof (IH (length s) ltac:(simpl; lia) s eq_refl _ _ E). simpl. lia.
    + destruct (unescape e); [|done].
      destruct (parse_chars s) as [[t' r']|] eqn:E; [|done]. simplify_eq.
      pose proof (IH (length s) ltac:(simpl; lia) s eq_refl _ _ E). simpl. lia.
  - destruct (c <? 32); [done|].
    destruct (parse_chars s) as [[t' r']|] eqn:E; [|done]. simplify_eq.
    pose proof (IH (length s) ltac:(simpl; lia) s eq_refl _ _ E). simpl. lia.
Qed.

Lemma digits_length s : (length (digits s).2 <= length s)%nat.
Proof.
  induction s as [|c s IH]; simpl; [lia|]. destruct (digit_of c); [|simpl; lia].
  destruct (digits s). simpl in *. lia.
Qed.

Lemma digits_cons_length s : (digits s).1 <> Decimal.Nil -> (length (digits s).2 < length s)%nat.
Proof.
  destruct s as [|c s]; simpl; [done|]. destruct (digit_of c) as [d|] eqn:E; [|done].
  pose proof (digits_length s). destruct (digits s). simpl in *. lia.
Qed.

Lemma number_of_length neg s v r : number_of neg s = Some (v, r) -> (length r < length s)%nat.
Proof.
  unfold number_of. pose proof (digits_cons_length s) as H.
  destruct (digits s) as [u rest]. simpl in H.
  intros E.
  match type of E with (if ?b then _ else _) = _ => destruct b eqn:Eb end; [|done].
  simplify_eq. apply H. by destruct u.
Qed.

Lemma parse_number_length s v r : parse_number s = Some (v, r) -> (length r < length s)%nat.
Proof.
  unfold parse_number. destruct s as [|c s]; [done|].
  destruct (c =? 45); intros H; apply number_of_length in H; simpl in *; lia.
Qed.

Ltac use_tests :=
  repeat match goal with
         | E : (?a =? ?b) = _ |- context [?a =? ?b] => rewrite E
         end.

Ltac more_fuel g :=
  let g' := fresh "g" in
  destruct g as [|g']; [simpl in *; lia|].

Lemma enough_value_step f : enough_elems f -> enough_members f -> enough_value (S f).
Proof.
  intros IHe IHm s v r H. cbn [parse_value] in H.
  destruct (skip_ws s) as [|c r0] eqn:Es; [done|].
  assert (Hl : (length r0 < length s)%nat).
  { pose proof (skip_ws_length s) as Hs. rewrite Es in Hs. simpl in Hs. lia. }
  destruct (c =? 110) eqn:E1.
  { destruct (strip (u16 "ull") r0) as [r'|] eqn:Ep; [|done]. cbn in H. simplify_eq.
    apply strip_length in Ep as Hp. split; [lia|]. intros g Hg. more_fuel g.
    cbn [parse_value]. rewrite Es. use_tests. by rewrite Ep. }
  destruct (c =? 116) eqn:E2.
  { destruct (strip (u16 "rue") r0) as [r'|] eqn:Ep; [|done]. cbn in H. simplify_eq.
    apply strip_length in Ep as Hp. split; [lia|]. intros g Hg. more_fuel g.
    cbn [parse_value]. rewrite Es. use_tests. by rewrite Ep. }
  destruct (c =? 102) eqn:E3.
  { destruct (strip (u16 "alse") r0) as [r'|] eqn:Ep; [|done]. cbn in H. simplify_eq.
    apply strip_length in Ep as Hp. split; [lia|]. intros g Hg. more_fuel g.
    cbn [parse_value]. rewrite Es. use_tests. by rewrite Ep. }
  destruct (c =? 34) eqn:E4.
  { destruct (parse_chars r0) as [[t rest]|] eqn:Ep; [|done]. simplify_eq.
    apply parse_chars_length in Ep as Hp. split; [lia|]. intros g Hg. more_fuel g.
    cbn [parse_value]. rewrite Es. use_tests. by rewrite Ep. }
  destruct (c =? 91) eqn:E5.
  { destruct (skip_ws r0) as [|c' r'] eqn:Es'; [done|].
    pose proof (skip_ws_length r0) as Hs'. rewrite Es' in Hs'. simpl in Hs'.
    destruct (c' =? 93) eqn:E6.
    - simplify_eq. split; [lia|]. intros g Hg. more_fuel g.
      cbn [parse_value]. rewrite Es. use_tests. rewrite Es'. by use_tests.
    - destruct (parse_elems f r0) as [[vs rest]|] eqn:Ep; [|done]. simplify_eq.
      destruct (IHe _ _ _ Ep) as [Hp Hmore]. split; [lia|]. intros g Hg. more_fuel g.
      cbn [parse_value]. rewrite Es. use_tests. rewrite Es'. use_tests.
      rewrite Hmore by lia. done. }
  destruct (c =? 123) eqn:E7.
  { destruct (skip_ws r0) as [|c' r'] eqn:Es'; [done|].
    pose proof (skip_ws_length r0) as Hs'. rewrite Es' in Hs'. simpl in Hs'.
    destruct (c' =? 125) eqn:E6.
    - simplify_eq. split; [lia|]. intros g Hg. more_fuel g.
      cbn [parse_value]. rewrite Es. use_tests. rewrite Es'. by use_tests.
    - destruct (parse_members f r0) as [[ms rest]|] eqn:Ep; [|done]. simplify_eq.
      destruct (IHm _ _ _ Ep) as [Hp Hmore]. split; [lia|]. intros g Hg. more_fuel g.
      cbn [parse_value]. rewrite Es. use_tests. rewrite Es'. use_tests.
      rewrite Hmore by lia. done. }
  apply parse_number_length in H as Hp. simpl in Hp. split; [lia|]. intros g Hg. more_fuel g.
  cbn [parse_value]. rewrite Es. use_tests. done.
Qed.

Lemma enough_elems_step f : enough_value f -> enough_elems f -> enough_elems (S f).
Proof.
  intros IHv IHe s vs r H. cbn [parse_elems] in H.
  destruct (parse_value f s) as [[v r1]|] eqn:Ev; [|done].
  destruct (IHv _ _ _ Ev) as [Hv Hmore].
  destruct (skip_ws r1) as [|c r'] eqn:Es; [done|].
  pose proof (skip_ws_length r1) as Hs. rewrite Es in Hs. simpl in Hs.
  destruct (c =? 44) eqn:E1.
  - destruct (parse_elems f r') as [[vs' rest]|] eqn:Ep; [|done]. simplify_eq.
    destruct (IHe _ _ _ Ep) as [Hp Hmore']. split; [lia|]. intros g Hg. more_fuel g.
    cbn [parse_elems]. rewrite Hmore by lia. rewrite Es. use_tests.
    rewrite Hmore' by lia. done.
  - destruct (c =? 93) eqn:E2; [|done]. simplify_eq. split; [lia|]. intros g Hg. more_fuel g.
    cbn [parse_elems]. rewrite Hmore by lia. rewrite Es. by use_tests.
Qed.

Lemma enough_members_step f : enough_value f -> enough_members f -> enough_members (S f).
Proof.
  intros IHv IHm s ms r H. cbn [parse_members] in H.
  destruct (skip_ws s) as [|c r0] eqn:Es; [done|].
  pose proof (skip_ws_length s) as Hs. rewrite Es in Hs. simpl in Hs.
  destruct (c =? 34) eqn:E1; [|done].
  destruct (parse_chars r0) as [[k r1]|] eqn:Ek; [|done].
  apply parse_chars_length in Ek as Hk.
  destruct (skip_ws r1) as [|c1 r2] eqn:Es1; [done|].
  pose proof (skip_ws_length r1) as Hs1. rewrite Es1 in Hs1. simpl in Hs1.
  destruct (c1 =? 58) eqn:E2; [|done].
  destruct (parse_value f r2) as [[v r3]|] eqn:Ev; [|done].
  destruct (IHv _ _ _ Ev) as [Hv Hmore].
  destruct (skip_ws r3) as [|c3 r4] eqn:Es3; [done|].
  pose proof (skip_ws_length r3) as Hs3. rewrite Es3 in Hs3. simpl in Hs3.
  destruct (c3 =? 44) eqn:E3.
  - destruct (parse_members f r4) as [[ms' rest]|] eqn:Ep; [|done]. simplify_eq.
    destruct (IHm _ _ _ Ep) as [Hp Hmore']. split; [lia|]. intros g Hg. more_fuel g.
    cbn [parse_members]. rewrite Es. use_tests. rewrite Ek, Es1. use_tests.
    rewrite Hmore by lia. rewrite Es3. use_tests. rewrite Hmore' by lia. done.
  - destruct (c3 =? 125) eqn:E4; [|done]. simplify_eq. split; [lia|].
    intros g Hg. more_fuel g.
    cbn [parse_members]. rewrite Es. use_tests. rewrite Ek, Es1. use_tests.
    rewrite Hmore by lia. rewrite Es3. by use_tests.
Qed.

Lemma fuel_enough f : enough_value f /\ enough_elems f /\ enough_members f.
Proof.
  induction f as [|f (IHv & IHe & IHm)].
  - split; [|split]; intros s v r E; discriminate E.
  - assert (Hv : enough_value (S f)) by by apply enough_value_step.
    split; [done|]. split; [by apply enough_elems_step|by apply enough_members_step].
Qed.

(** No JSON text is rejected for lack of fuel: what any amount of fuel reads,
    [JSON_parse] reads. *)
Lemma JSON_parse_fuel f s v r :
  parse_value f s = Some (v, r) -> skip_ws r = [] -> JSON_parse s = Some v.
Proof.
  intros H Hr. destruct (fuel_enough f) as (Hv & _ & _).
  destruct (Hv _ _ _ H) as [Hl Hmore]. unfold JSON_parse.
  rewrite (Hmore (S (length s))) by lia. by rewrite Hr.
Qed.

(** ** The availability guard *)

Lemma supportsLS_memo config now w b :
  hasLS w = Some b -> supportsLS config now w = (b, w).
Proof. intros H. unfold supportsLS. by rewrite H. Qed.

Lemma supportsLS_hasLS config now w :
  hasLS (supportsLS config now w).2 = Some (supportsLS config now w).1.
Proof.
  unfold supportsLS. destruct (hasLS w) as [b|] eqn:E; [done|].
  unfold flush_with, memoised. simpl. by destruct (localStorage_ok host).
Qed.

(** The store once the guard has run: untouched when [hasLS] was already
    defined, swept of its expired TTL entries by the first call. *)
Lemma supportsLS_store config now w :
  localStorage (supportsLS config now w).2
  = match hasLS w with
    | Some _ => localStorage w
    | None =>
        if localStorage_ok host
        then flush_keys (prefix config) now false (localStorage w)
        else localStorage w
    end.
Proof.
  unfold supportsLS. destruct (hasLS w) as [b|] eqn:E; [done|].
  unfold flush_with, memoised. simpl. destruct (localStorage_ok host); [|done].
  simpl. unfold merge_prefix. simpl. done.
Qed.

Lemma supportsLS_guarded config now w :
  (supportsLS config now w).2 = guarded config now w.
Proof.
  unfold supportsLS, guarded. destruct (hasLS w) as [b|] eqn:E; [done|].
  unfold flush_with, memoised. simpl. by destruct (localStorage_ok host).
Qed.

Lemma supportsLS_answer config now w :
  (supportsLS config now w).1 = default (localStorage_ok host) (hasLS w).
Proof.
  unfold supportsLS. destruct (hasLS w) as [b|] eqn:E; [done|].
  unfold flush_with, memoised. simpl. by destruct (localStorage_ok host).
Qed.

(** ** What a successful [set] leaves behind *)

Lemma set_ok config now key v localConfig w :
  (set config now key v localConfig w).1 = VUndefined ->
  exists o,
    encode (merge config localConfig) now v = Ret o /\
    (set config now key v localConfig w).2
    = {| hasLS := Some true;
         localStorage :=
           <[scoped (prefix (merge config localConfig)) key := default (u16 "undefined") o]>
             (localStorage (supportsLS config now w).2) |}.
Proof.
  unfold set. pose proof (supportsLS_hasLS config now w) as Hh.
  destruct (supportsLS config now w) as [ok w1]. simpl in Hh.
  destruct ok; simpl; [|done].
  destruct (encode (merge config localConfig) now v) as [o|]; [|done].
  destruct (setItem_ok host _ _ _); [|done].
  intros _. exists o. simpl. by rewrite Hh.
Qed.

Lemma JSON_parse_nonempty s item : JSON_parse s = Some item -> s <> [].
Proof. by intros H ->. Qed.

(** [get] on an initialised module whose store holds a JSON text under the
    effective key. *)
Lemma get_stored config now key localConfig w s item :
  hasLS w = Some true ->
  localStorage w !! scoped (prefix (merge config localConfig)) key = Some s ->
  JSON_parse s = Some item ->
  get config now key localConfig w
  = let conf := merge config localConfig in
    let k := scoped (prefix conf) key in
    if negb (has_sentinel item) then (Ret (decode conf item), w)
    else if expired now (decode conf item)
         then (Ret VNull, {| hasLS := hasLS w; localStorage := delete k (localStorage w) |})
         else (Ret (prop APX (decode conf item)), w).
Proof.
  intros Hh Hs Hp. unfold get. rewrite (supportsLS_memo _ _ _ _ Hh).
  cbv beta iota zeta. cbn [negb]. cbv iota.
  rewrite Hs, Hp. pose proof (JSON_parse_nonempty _ _ Hp). by destruct s.
Qed.

(** The TTL wrapper [{ [APX]: v, ttl: e }] of a serializable value is
    serializable. *)
Lemma wrapper_json v e : is_json v = true -> is_json (wrapper v e) = true.
Proof. intros Hj. simpl. rewrite Hj. reflexivity. Qed.

Lemma wrapper_sentinel v e : has_sentinel (wrapper v e) = true.
Proof. reflexivity. Qed.

Lemma wrapper_APX v e : prop APX (wrapper v e) = v.
Proof. reflexivity. Qed.

Lemma wrapper_expired now v e : expired now (wrapper v e) = (e <? now).
Proof. reflexivity. Qed.

Lemma decode_off conf item :
  bool_truthy (decrypt conf) = false -> bool_truthy (encrypt conf) = false ->
  decode conf item = item.
Proof. intros H1 H2. unfold decode. by rewrite H1, H2. Qed.

(** What [encode] hands to [setItem] when nothing is obfuscated. *)
Lemma encode_plain conf now v :
  bool_truthy (encrypt conf) = false ->
  encode conf now v
  = if hasTTL (ttl conf)
    then stringify (wrapper v (now + default 0 (ttl_number (ttl conf)) * 1000))
    else stringify v.
Proof. intros H. unfold encode. rewrite H. by destruct (hasTTL (ttl conf)). Qed.

(** ** C1: plain round trip *)

(** C1 (as amended).  With no TTL in effect, obfuscation off and the stray
    [decrypt] flag unset, a [set] that did not report a failure followed by
    [get] under the same configuration returns [v], for every JSON-serializable
    [v] that is not an object carrying the sentinel key; the store is left as
    [set] left it. *)
Theorem C1_plain_roundtrip config localConfig now now' key v w :
  hasTTL (ttl (merge config localConfig)) = false ->
  bool_truthy (encrypt (merge config localConfig)) = false ->
  bool_truthy (decrypt (merge config localConfig)) = false ->
  is_json v = true ->
  has_sentinel v = false ->
  (set config now key v localConfig w).1 = VUndefined ->
  get config now' key localConfig (set config now key v localConfig w).2
  = (Ret v, (set config now key v localConfig w).2).
Proof.
  intros Ht He Hd Hj Hs Hok.
  destruct (set_ok _ _ _ _ _ _ Hok) as (o & Ho & ->).
  rewrite encode_plain, Ht, (stringify_json v Hj) in Ho by done. injection Ho as <-.
  erewrite get_stored; [| done | apply lookup_insert_eq | by apply JSON_parse_text].
  simpl. rewrite Hs. simpl. by rewrite decode_off.
Qed.

(** ** C2: TTL expiry *)

(** C2 (as amended).  After a [set(k, v, {ttl: t})] with [t > 0] whose
    expiry [now + t * 1000] is below [2 ^ 53] and that did not report a failure
    (neither [encrypt] nor the [decrypt] flag in effect), [get(k)] returns [v]
    for every JSON-serializable [v] as long as the clock has not passed the
    stored expiry; once it has, [get(k)] returns [null] and the entry is gone
    from the store. *)
Theorem C2_ttl_expiry config now now' key v t w :
  0 < t ->
  0 <= now ->
  now + t * 1000 < 2 ^ 53 ->
  bool_truthy (encrypt config) = false ->
  bool_truthy (decrypt config) = false ->
  is_json v = true ->
  (set config now key v (with_ttl (TtlNum t)) w).1 = VUndefined ->
  let w' := (set config now key v (with_ttl (TtlNum t)) w).2 in
  let k := scoped (prefix config) key in
  localStorage w' !! k = Some (text (wrapper v (now + t * 1000))) /\
  (now' <= now + t * 1000 -> get config now' key no_config w' = (Ret v, w')) /\
  (now + t * 1000 < now' ->
     (get config now' key no_config w').1 = Ret VNull /\
     localStorage (get config now' key no_config w').2 = delete k (localStorage w') /\
     localStorage (get config now' key no_config w').2 !! k = None).
Proof.
  intros Ht _ _ He Hd Hj Hok w' k. subst w'.
  destruct (set_ok _ _ _ _ _ _ Hok) as (o & Ho & ->).
  assert (Hm : ttl (merge config (with_ttl (TtlNum t))) = TtlNum t).
  { simpl. unfold merge_ttl. simpl. destruct (Z.eqb_spec t 0); [lia|done]. }
  assert (HT : hasTTL (TtlNum t) = true).
  { unfold hasTTL. simpl. destruct (Z.eqb_spec t 0); [lia|]. simpl. lia. }
  rewrite encode_plain, Hm, HT in Ho by done. simpl ttl_number in Ho. simpl default in Ho.
  rewrite (stringify_json _ (wrapper_json v (now + t * 1000) Hj)) in Ho. injection Ho as <-.
  change (prefix (merge config (with_ttl (TtlNum t)))) with (prefix config).
  fold k. simpl default.
  assert (Hg : forall w0 : World,
    hasLS w0 = Some true ->
    localStorage w0 !! k = Some (text (wrapper v (now + t * 1000))) ->
    get config now' key no_config w0
    = if now + t * 1000 <? now'
      then (Ret VNull, {| hasLS := hasLS w0; localStorage := delete k (localStorage w0) |})
      else (Ret v, w0)).
  { intros w0 Hh Hs.
    erewrite get_stored; [| done | exact Hs | apply JSON_parse_text; by apply wrapper_json].
    cbv zeta. rewrite decode_off by done.
    rewrite wrapper_sentinel, wrapper_expired, wrapper_APX. reflexivity. }
  split; [apply lookup_insert_eq|]. split.
  - intros Hle. rewrite Hg; [|done|apply lookup_insert_eq].
    destruct (Z.ltb_spec (now + t * 1000) now'); [lia|done].
  - intros Hlt. rewrite Hg; [|done|apply lookup_insert_eq].
    destruct (Z.ltb_spec (now + t * 1000) now'); [|lia].
    simpl. split; [done|]. split; [done|]. apply lookup_delete_eq.
Qed.

(** ** C3: the three-way merge of [ttl] *)

(** C3 (as amended).  Whatever the global default, an override [ttl: null]
    gives [null] and an override [ttl: 5] gives [5]; an absent override, an
    override [false] and an override [0] all give the global default, and
    [set] and [get] then run exactly as they do without any override. *)
Theorem C3_ttl_merge config :
  ttl (merge config (with_ttl TtlNull)) = TtlNull /\
  ttl (merge config (with_ttl (TtlNum 5))) = TtlNum 5 /\
  ttl (merge config (with_ttl TtlUndefined)) = ttl config /\
  ttl (merge config (with_ttl (TtlBool false))) = ttl config /\
  ttl (merge config (with_ttl (TtlNum 0))) = ttl config /\
  forall now key v w,
    set config now key v (with_ttl (TtlBool false)) w = set config now key v no_config w /\
    set config now key v (with_ttl (TtlNum 0)) w = set config now key v no_config w /\
    get config now key (with_ttl (TtlBool false)) w = get config now key no_config w /\
    hasTTL (ttl (merge config (with_ttl TtlNull))) = false /\
    hasTTL (ttl (merge config (with_ttl (TtlNum 5)))) = true.
Proof.
  repeat split; try reflexivity.
Qed.

(** ** The sweep *)

(** A loop over keys that deletes the visited key or leaves the store alone,
    deciding from the key and what the store holds under it. *)
Lemma fold_delete_lookup (R : str -> option str -> bool) (ks : list str)
    (st : gmap str str) (k : str) :
  fold_left (fun st key => if R key (st !! key) then delete key st else st) ks st !! k
  = if bool_decide (k ∈ ks) && R k (st !! k) then None else st !! k.
Proof.
  revert st. induction ks as [|key ks IH]; intros st; [done|].
  cbn [fold_left]. rewrite IH.
  destruct (decide (k = key)) as [->|Hne].
  - rewrite (bool_decide_eq_true_2 (key ∈ key :: ks)) by left.
    destruct (R key (st !! key)) eqn:E.
    + rewrite lookup_delete_eq. by destruct (_ && _).
    + rewrite E. by rewrite andb_false_r.
  - assert (Hk : bool_decide (k ∈ key :: ks) = bool_decide (k ∈ ks)).
    { apply bool_decide_ext. rewrite elem_of_cons. tauto. }
    rewrite Hk.
    destruct (R key (st !! key)); [by rewrite lookup_delete_ne|done].
Qed.

Lemma fold_left_pointwise {A B : Type} (f g : A -> B -> A) (l : list B) (a : A) :
  (forall a b, f a b = g a b) -> fold_left f l a = fold_left g l a.
Proof. intros H. revert a. induction l as [|b l IH]; intros a; [done|]. simpl. by rewrite H, IH. Qed.

Lemma elem_of_keys (st : gmap str str) (k s : str) : st !! k = Some s -> k ∈ keys st.
Proof.
  intros H. unfold keys. apply list_elem_of_fmap. exists (k, s). split; [done|].
  by apply elem_of_map_to_list.
Qed.

Lemma JSON_parse_empty : JSON_parse [] = None.
Proof. reflexivity. Qed.

Lemma flush_step_hits (p : prefix_t) (now : Z) (force : bool) (st : gmap str str) (key : str) :
  flush_step p now force st key
  = if flush_hits p now force key (st !! key) then delete key st else st.
Proof.
  unfold flush_step, flush_hits, in_scope.
  destruct (prefix_truthy p && negb (startsWith (prefix_str p) key)); [done|].
  cbn [negb andb]. destruct (st !! key) as [[|c s]|]; [by rewrite JSON_parse_empty|..|done].
  destruct (JSON_parse (c :: s)); [|done]. done.
Qed.

(** [flush]'s loop, entry by entry. *)
Lemma flush_keys_lookup (p : prefix_t) (now : Z) (force : bool) (st : gmap str str) (k : str) :
  flush_keys p now force st !! k
  = if flush_hits p now force k (st !! k) then None else st !! k.
Proof.
  unfold flush_keys.
  rewrite (fold_left_pointwise _ (fun st key =>
             if flush_hits p now force key (st !! key) then delete key st else st))
    by apply flush_step_hits.
  rewrite fold_delete_lookup. destruct (st !! k) as [s|] eqn:E.
  - by rewrite (bool_decide_eq_true_2 _ (elem_of_keys _ _ _ E)).
  - unfold flush_hits. by rewrite andb_false_r, andb_false_r.
Qed.

(** [clear]'s loop, entry by entry. *)
Lemma clear_keys_lookup (q : str) (st : gmap str str) (k : str) :
  fold_left (fun st key => if startsWith q key then delete key st else st) (keys st) st !! k
  = if startsWith q k then None else st !! k.
Proof.
  rewrite (fold_delete_lookup (fun key _ => startsWith q key)).
  destruct (st !! k) as [s|] eqn:E.
  - by rewrite (bool_decide_eq_true_2 _ (elem_of_keys _ _ _ E)).
  - by destruct (_ && _), (startsWith q k).
Qed.

(** The store [flush] leaves. *)
Lemma flush_store config now force localConfig w :
  (flush config now force localConfig w).1 = VUndefined ->
  localStorage (flush config now force localConfig w).2
  = flush_keys (merge_prefix config localConfig) now force
      (localStorage (supportsLS config now w).2).
Proof.
  unfold flush, flush_with. destruct (supportsLS config now w) as [[|] w1]; simpl; done.
Qed.

Lemma flush_store_cases config now force localConfig w :
  localStorage (flush config now force localConfig w).2
  = flush_keys (merge_prefix config localConfig) now force
      (localStorage (supportsLS config now w).2)
  \/ localStorage (flush config now force localConfig w).2
     = localStorage (supportsLS config now w).2.
Proof.
  unfold flush, flush_with. destruct (supportsLS config now w) as [[|] w1]; simpl; auto.
Qed.

(** The guard never drops an entry that [flush] without force would keep. *)
Lemma guard_keeps config now w k s :
  localStorage w !! k = Some s ->
  (forall p, flush_hits p now false k (Some s) = false) ->
  localStorage (supportsLS config now w).2 !! k = Some s.
Proof.
  intros Hs Hk. rewrite supportsLS_store. destruct (hasLS w); [done|].
  destruct (localStorage_ok host); [|done].
  by rewrite flush_keys_lookup, Hs, Hk.
Qed.

(** After the guard an entry is either as it was or gone. *)
Lemma guard_lookup config now w k :
  localStorage (supportsLS config now w).2 !! k = localStorage w !! k \/
  localStorage (supportsLS config now w).2 !! k = None.
Proof.
  rewrite supportsLS_store. destruct (hasLS w); [by left|].
  destruct (localStorage_ok host); [|by left].
  rewrite flush_keys_lookup. destruct (flush_hits _ _ _ _ _); [by right|by left].
Qed.

Lemma flush_keeps_plain config now force localConfig w k s :
  localStorage w !! k = Some s ->
  match JSON_parse s with Some item => has_sentinel item = false | None => True end ->
  localStorage (flush config now force localConfig w).2 !! k = Some s.
Proof.
  intros Hs Hp.
  assert (Hn : forall p f, flush_hits p now f k (Some s) = false).
  { intros p f. unfold flush_hits. destruct (JSON_parse s) as [item|].
    - by rewrite Hp, andb_false_r.
    - by rewrite andb_false_r. }
  pose proof (guard_keeps config now w k s Hs (fun p => Hn p false)) as Hg.
  destruct (flush_store_cases config now force localConfig w) as [-> | ->]; [|done].
  by rewrite flush_keys_lookup, Hg, Hn.
Qed.

Lemma flush_drops_expired config now localConfig w k s item e :
  localStorage w !! k = Some s ->
  JSON_parse s = Some item ->
  has_sentinel item = true ->
  prop (u16 "ttl") item = VNum e -> e < now ->
  in_scope (merge_prefix config localConfig) k = true ->
  (flush config now false localConfig w).1 = VUndefined ->
  localStorage (flush config now false localConfig w).2 !! k = None.
Proof.
  intros Hs Hp Hsen Httl He Hin Hok.
  rewrite (flush_store _ _ _ _ _ Hok), flush_keys_lookup.
  destruct (guard_lookup config now w k) as [-> | ->].
  - rewrite Hs. unfold flush_hits. rewrite Hin, Hp, Hsen. unfold expired. rewrite Httl. simpl.
    destruct (Z.ltb_spec e now); [done|lia].
  - by destruct (flush_hits _ _ _ _ _).
Qed.

Lemma flush_keeps_unexpired config now localConfig w k s item e :
  localStorage w !! k = Some s ->
  JSON_parse s = Some item ->
  prop (u16 "ttl") item = VNum e -> now <= e ->
  localStorage (flush config now false localConfig w).2 !! k = Some s.
Proof.
  intros Hs Hp Httl He.
  assert (Hn : forall p, flush_hits p now false k (Some s) = false).
  { intros p. unfold flush_hits. rewrite Hp. unfold expired. rewrite Httl. simpl.
    destruct (Z.ltb_spec e now); [lia|]. by rewrite !andb_false_r. }
  pose proof (guard_keeps config now w k s Hs Hn) as Hg.
  destruct (flush_store_cases config now false localConfig w) as [-> | ->]; [|done].
  by rewrite flush_keys_lookup, Hg, Hn.
Qed.

(** ** C4: flush selectivity *)

(** C4.  For every store: [flush], forced or not, keeps every entry whose
    parsed value has no sentinel; over a store that can be reached an unforced
    [flush] does not fail and removes every TTL entry within the prefix filter
    whose expiry is in the past; and it keeps every TTL entry whose expiry is
    not. *)
Theorem C4_flush_selectivity config localConfig now w :
  (forall force k s item,
     localStorage w !! k = Some s -> JSON_parse s = Some item ->
     has_sentinel item = false ->
     localStorage (flush config now force localConfig w).2 !! k = Some s) /\
  (forall k s item e,
     default (localStorage_ok host) (hasLS w) = true ->
     localStorage w !! k = Some s -> JSON_parse s = Some item ->
     has_sentinel item = true -> prop (u16 "ttl") item = VNum e -> e < now ->
     in_scope (merge_prefix config localConfig) k = true ->
     (flush config now false localConfig w).1 = VUndefined /\
     localStorage (flush config now false localConfig w).2 !! k = None) /\
  (forall k s item e,
     localStorage w !! k = Some s -> JSON_parse s = Some item ->
     has_sentinel item = true -> prop (u16 "ttl") item = VNum e -> now <= e ->
     localStorage (flush config now false localConfig w).2 !! k = Some s).
Proof.
  split; [|split].
  - intros force k s item Hs Hp Hsen. apply flush_keeps_plain; [done|]. by rewrite Hp.
  - intros k s item e Hb Hs Hp Hsen Ht He Hin.
    assert (Hok : (flush config now false localConfig w).1 = VUndefined).
    { unfold flush, flush_with. pose proof (supportsLS_answer config now w) as Ha.
      rewrite Hb in Ha. destruct (supportsLS config now w) as [ok w2].
      cbn [fst] in Ha. by subst ok. }
    split; [exact Hok|]. by eapply flush_drops_expired.
  - intros k s item e Hs Hp Hsen Ht He. by eapply flush_keeps_unexpired.
Qed.

(** ** C10: what [get] may change *)

Lemma obj_get_put_ne k k' v (l : list (str * value)) :
  k <> k' -> obj_get k' (obj_put k v l) = obj_get k' l.
Proof.
  intros Hne. induction l as [|[k0 v0] l IH]; simpl.
  - by destruct (decide (k = k')).
  - destruct (decide (k0 = k)) as [->|Hk]; simpl.
    + by destruct (decide (k = k')).
    + by rewrite IH.
Qed.

(** De-obfuscation does not touch the expiry. *)
Lemma decode_expired conf now item :
  has_sentinel item = true -> expired now (decode conf item) = expired now item.
Proof.
  intros Hs. unfold decode. destruct (_ || _); [|done]. rewrite Hs.
  destruct (default NOOP (decrypter conf) _ _) as [p|]; [|done].
  destruct item as [| | | | | | |l]; try done.
  unfold expired, prop. by rewrite obj_get_put_ne.
Qed.

(** C10 (as amended).  Let [guarded] be the state the availability guard
    leaves (the state it found, except on the module's first operation, where
    the memo is set and the one-time sweep has run).  Then [get] either
    leaves that state as it is, or returns [null] having removed exactly the
    entry under the effective key, which was a TTL entry past its expiry. *)
Theorem C10_get_frame config now key localConfig w :
  let w1 := guarded config now w in
  let k := scoped (prefix (merge config localConfig)) key in
  (get config now key localConfig w).2 = w1 \/
  exists s item,
    localStorage w1 !! k = Some s /\ JSON_parse s = Some item /\
    has_sentinel item = true /\ expired now item = true /\
    (get config now key localConfig w).1 = Ret VNull /\
    (get config now key localConfig w).2
    = {| hasLS := hasLS w1; localStorage := delete k (localStorage w1) |}.
Proof.
  intros w1 k. subst w1. rewrite <- supportsLS_guarded. unfold get.
  destruct (supportsLS config now w) as [ok w1]. cbn [snd].
  destruct ok; cbn [negb]; [|by left]. cbv zeta. fold k.
  destruct (localStorage w1 !! k) as [[|c s]|] eqn:Hs; [by left| |by left].
  destruct (JSON_parse (c :: s)) as [item|] eqn:Hp; [|by left].
  destruct (has_sentinel item) eqn:Hsen; cbn [negb]; [|by left].
  rewrite (decode_expired _ _ _ Hsen).
  destruct (expired now item) eqn:He; [|by left].
  right. by exists (c :: s), item.
Qed.

(** ** C8: a failing [set] *)

(** C8 (as amended).  When the [try] block of [set] throws while producing
    the text to store, or [setItem] refuses the write, [set] returns [false]
    and leaves the state the availability guard left: nothing is written.
    (That state is the one [set] found, except on the module's first
    operation.) *)
Theorem C8_set_failure config now key v localConfig w :
  let conf := merge config localConfig in
  let w1 := guarded config now w in
  (encode conf now v = Throw \/
   exists o, encode conf now v = Ret o /\
     setItem_ok host (localStorage w1) (scoped (prefix conf) key)
       (default (u16 "undefined") o) = false) ->
  set config now key v localConfig w = (VBool false, w1).
Proof.
  intros conf w1 H. subst conf w1. rewrite <- supportsLS_guarded in *. unfold set.
  destruct (supportsLS config now w) as [ok w1]. cbn [snd] in *.
  destruct ok; cbn [negb]; [|done]. cbv zeta.
  destruct H as [-> | (o & -> & ->)]; done.
Qed.

(** A value [JSON.stringify] throws on makes the [try] block throw, when
    nothing is obfuscated or the obfuscator is [obfus]. *)
Lemma encode_throws conf now v :
  stringify v = Throw ->
  (bool_truthy (encrypt conf) = false \/ encrypter conf = encrypter config) ->
  encode conf now v = Throw.
Proof.
  intros Hs H. unfold encode.
  assert (Hw : forall e, stringify (wrapper v e) = Throw).
  { intros e. unfold wrapper. cbn [stringify each]. by rewrite Hs. }
  destruct H as [-> | ->].
  - destruct (hasTTL (ttl conf)); [apply Hw|done].
  - assert (He : default NOOP (encrypter config) v (secret conf) = Throw).
    { simpl. unfold obfus. by rewrite Hs. }
    cbv zeta. rewrite He.
    destruct (hasTTL (ttl conf)), (bool_truthy (encrypt conf)); try done; apply Hw.
Qed.

(** ** C7: a failing de-obfuscation *)


(** ** C9: prefixes *)

Lemma set_ok_memo config now key v localConfig w :
  hasLS w = Some true ->
  (set config now key v localConfig w).1 = VUndefined ->
  exists o,
    encode (merge config localConfig) now v = Ret o /\
    (set config now key v localConfig w).2
    = {| hasLS := Some true;
         localStorage :=
           <[scoped (prefix (merge config localConfig)) key := default (u16 "undefined") o]>
             (localStorage w) |}.
Proof.
  intros Hh Hok. destruct (set_ok _ _ _ _ _ _ Hok) as (o & Ho & E).
  exists o. split; [done|]. rewrite E. by rewrite (supportsLS_memo _ _ _ _ Hh).
Qed.

(** The store [clear] leaves, entry by entry. *)
Lemma clear_lookup config now localConfig w k :
  (clear config now localConfig w).1 = VUndefined ->
  localStorage (clear config now localConfig w).2 !! k
  = let p := merge_prefix config localConfig in
    if prefix_truthy p
    then if startsWith (prefix_str p) k then None
         else localStorage (guarded config now w) !! k
    else None.
Proof.
  rewrite <- supportsLS_guarded. unfold clear.
  destruct (supportsLS config now w) as [[|] w1]; cbn [negb fst snd]; [|done].
  intros _. cbv zeta. cbn [localStorage].
  destruct (prefix_truthy _); [apply clear_keys_lookup|apply lookup_empty].
Qed.

Lemma scoped_prefix (p : str) key : p <> [] -> scoped (PfxStr p) key = p ++ key.
Proof. intros H. unfold scoped. destruct p; done. Qed.

Lemma merge_with_prefix config (p : str) :
  p <> [] -> prefix (merge config (with_prefix p)) = PfxStr p.
Proof. intros H. simpl. unfold merge_prefix. simpl. by destruct p. Qed.

(** C9 (as amended).  With no TTL in effect and obfuscation off, two [set]s
    of the same key under two different non-empty prefixes that did not
    report a failure are read back independently, for JSON-serializable
    values that do not carry the sentinel key.  And a [clear] that did not
    report the store unavailable leaves, of the store the availability guard
    left, exactly the entries whose key does not start with the effective
    prefix, and nothing at all when no prefix is in effect. *)
Theorem C9_prefix_isolation config :
  (forall now1 now2 now3 now4 key v1 v2 (pa pb : str) w,
     pa <> [] -> pb <> [] -> pa <> pb ->
     hasTTL (ttl config) = false ->
     bool_truthy (encrypt config) = false ->
     bool_truthy (decrypt config) = false ->
     is_json v1 = true -> has_sentinel v1 = false ->
     is_json v2 = true -> has_sentinel v2 = false ->
     let wa := (set config now1 key v1 (with_prefix pa) w).2 in
     let wb := (set config now2 key v2 (with_prefix pb) wa).2 in
     (set config now1 key v1 (with_prefix pa) w).1 = VUndefined ->
     (set config now2 key v2 (with_prefix pb) wa).1 = VUndefined ->
     get config now3 key (with_prefix pa) wb = (Ret v1, wb) /\
     get config now4 key (with_prefix pb) wb = (Ret v2, wb)) /\
  (forall now localConfig w k,
     (clear config now localConfig w).1 = VUndefined ->
     localStorage (clear config now localConfig w).2 !! k
     = let p := merge_prefix config localConfig in
       if prefix_truthy p
       then if startsWith (prefix_str p) k then None
            else localStorage (guarded config now w) !! k
       else None).
Proof.
  split; [|intros; by apply clear_lookup].
  intros now1 now2 now3 now4 key v1 v2 pa pb w.
  intros Ha Hb Hab Ht He Hd Hj1 Hs1 Hj2 Hs2 wa wb Hok1 Hok2.
  assert (Hplain : forall p now v, p <> [] -> is_json v = true ->
            encode (merge config (with_prefix p)) now v = Ret (Some (text v))).
  { intros p now v Hp Hj. rewrite encode_plain by done.
    change (ttl (merge config (with_prefix p))) with (ttl config).
    by rewrite Ht, (stringify_json v Hj). }
  destruct (set_ok _ _ _ _ _ _ Hok1) as (o1 & Ho1 & Ea).
  rewrite Hplain in Ho1 by done. injection Ho1 as <-.
  rewrite merge_with_prefix, scoped_prefix in Ea by done. cbn [default] in Ea.
  assert (Hha : hasLS wa = Some true) by (subst wa; by rewrite Ea).
  destruct (set_ok_memo _ _ _ _ _ _ Hha Hok2) as (o2 & Ho2 & Eb).
  rewrite Hplain in Ho2 by done. injection Ho2 as <-.
  rewrite merge_with_prefix, scoped_prefix in Eb by done. cbn [default] in Eb.
  fold wb in Eb. subst wa. rewrite Ea in Eb. cbn [localStorage] in Eb.
  assert (Hne : pb ++ key <> pa ++ key).
  { intros E. apply app_inv_tail in E. by apply Hab. }
  assert (Hget : forall p now v, p <> [] -> is_json v = true -> has_sentinel v = false ->
            localStorage wb !! (p ++ key) = Some (text v) ->
            get config now key (with_prefix p) wb = (Ret v, wb)).
  { intros p now v Hp Hj Hs Hl.
    erewrite get_stored; [| by rewrite Eb | | by apply JSON_parse_text].
    - cbv zeta. rewrite Hs. cbn [negb]. by rewrite decode_off.
    - by rewrite merge_with_prefix, scoped_prefix. }
  split.
  - apply Hget; try done. rewrite Eb. cbn [localStorage].
    rewrite lookup_insert_ne by done. apply lookup_insert_eq.
  - apply Hget; try done. rewrite Eb. cbn [localStorage]. apply lookup_insert_eq.
Qed.

(** ** The obfuscator undoes itself on unpaired texts *)

Lemma unpaired_spread s : unpaired s = true -> spread s = map (fun c => [c]) s.
Proof.
  unfold unpaired.
  induction s as [|h|h l t E IH|h l t E IH] using spread_ind; intros H; try done.
  - rewrite spread_cons2, E in H. done.
  - rewrite spread_cons2, E in H |- *. cbn [forallb] in H.
    rewrite IH by done. done.
Qed.

Lemma wf_strb_true s : wf_str s -> wf_strb s = true.
Proof.
  unfold wf_strb, wf_str. rewrite forallb_forall, Forall_forall.
  intros H c Hc. apply list_elem_of_In in Hc. specialize (H c Hc). lia.
Qed.

Lemma uint_chars_wf u : wf_str (uint_chars u).
Proof. induction u; simpl; constructor; (lia || done). Qed.

Lemma number_text_wf n : wf_str (number_text n).
Proof.
  unfold number_text. destruct (Z.to_int n); [apply uint_chars_wf|].
  constructor; [lia|apply uint_chars_wf].
Qed.

Lemma hexdigit_wf d : 0 <= d < 16 -> 0 <= hexdigit d < 65536.
Proof. intros H. unfold hexdigit. destruct (d <? 10); lia. Qed.

Lemma quote_cp_wf x : wf_str x -> wf_str (quote_cp x).
Proof.
  intros Hx. destruct x as [|c [|c' x']]; try done.
  inversion Hx as [|? ? Hc _]; subst. unfold quote_cp.
  repeat (match goal with |- context [if ?b then _ else _] => destruct b end;
          [apply wf_strb_spec; reflexivity|]).
  match goal with |- context [if ?b then _ else _] => destruct b end; [|done].
  unfold unicode_escape.
  assert (0 <= c / 4096 < 16).
  { split; [apply Z.div_pos; lia | apply Z.div_lt_upper_bound; lia]. }
  pose proof (Z.mod_pos_bound (c / 256) 16 ltac:(lia)).
  pose proof (Z.mod_pos_bound (c / 16) 16 ltac:(lia)).
  pose proof (Z.mod_pos_bound c 16 ltac:(lia)).
  repeat (constructor; [first [lia | by apply hexdigit_wf]|]). constructor.
Qed.

Lemma spread_wf s : wf_str s -> Forall wf_str (spread s).
Proof.
  induction s as [|h|h l t E IH|h l t E IH] using spread_ind; intros H.
  - constructor.
  - simpl. constructor; [done|constructor].
  - rewrite spread_cons2, E. inversion H as [|? ? H1 H']; subst.
    inversion H' as [|? ? H2 H'']; subst.
    constructor; [|by apply IH]. constructor; [done|]. constructor; [done|constructor].
  - rewrite spread_cons2, E. inversion H as [|? ? H1 H']; subst.
    constructor; [|by apply IH]. constructor; [done|constructor].
Qed.

Lemma concat_wf (l : list str) : Forall wf_str l -> wf_str (concat l).
Proof. induction 1; simpl; [constructor|]. by apply Forall_app. Qed.

Lemma QuoteJSONString_wf s : wf_str s -> wf_str (QuoteJSONString s).
Proof.
  intros H. unfold QuoteJSONString. constructor; [lia|].
  apply Forall_app. split; [|constructor; [lia|constructor]].
  apply concat_wf. apply Forall_fmap. eapply Forall_impl; [by apply spread_wf|].
  intros x Hx. by apply quote_cp_wf.
Qed.

Lemma join_wf (l : list str) : Forall wf_str l -> wf_str (join [44] l).
Proof.
  induction 1 as [|x l Hx Hl IH]; [constructor|].
  destruct l as [|y l']; [done|].
  change (join [44] (x :: y :: l')) with (x ++ [44] ++ join [44] (y :: l')).
  apply Forall_app. split; [done|]. constructor; [lia|done].
Qed.

(** The text of a serializable value is made of code units. *)
Lemma text_wf v : is_json v = true -> wf_str (text v).
Proof.
  induction v as [| |b|n|n|s|l IH|l IH] using value_ind'; intros Hj; try done.
  - apply wf_strb_spec. reflexivity.
  - destruct b; apply wf_strb_spec; reflexivity.
  - apply number_text_wf.
  - apply QuoteJSONString_wf. by apply wf_strb_spec.
  - simpl in Hj. rewrite text_arr by done. constructor; [lia|].
    apply Forall_app. split; [|constructor; [lia|constructor]].
    apply join_wf. apply Forall_fmap. apply Forall_forall. intros y Hy.
    rewrite Forall_forall in IH. apply IH; [done|].
    rewrite forallb_forall in Hj. apply Hj. by apply list_elem_of_In.
  - simpl in Hj. apply andb_true_iff in Hj as [_ Hj]. rewrite text_obj by done.
    constructor; [lia|]. apply Forall_app. split; [|constructor; [lia|constructor]].
    apply join_wf. apply Forall_fmap. apply Forall_forall. intros [k y] Hy.
    rewrite Forall_forall in IH. rewrite forallb_forall in Hj.
    pose proof (Hj _ (proj1 (list_elem_of_In _ _) Hy)) as Hm. simpl in Hm.
    apply andb_true_iff in Hm as [Hk Hy'].
    unfold member_of. cbn [fst snd]. apply Forall_app. split.
    + apply QuoteJSONString_wf. by apply wf_strb_spec.
    + constructor; [lia|]. by apply (IH _ Hy).
Qed.

Lemma shifted_wf k s : wf_str (shifted k s).
Proof.
  unfold shifted. apply Forall_fmap. apply Forall_forall. intros c _.
  apply Z.mod_pos_bound. lia.
Qed.

Lemma unshift k s :
  wf_str s -> map (fun c => (c - k) mod 65536) (shifted k s) = s.
Proof.
  unfold shifted. induction 1 as [|c s Hc _ IH]; [done|]. simpl. rewrite IH. f_equal.
  rewrite Zminus_mod_idemp_l. replace (c + k - k) with c by lia. by apply Z.mod_small.
Qed.

Lemma shift_units k s :
  concat (map (fun x => fromCharCode (num_add (charCodeAt0 x) (Some k)))
            (map (fun c => [c]) s))
  = shifted k s.
Proof. induction s as [|c s IH]; [done|]. cbn [map concat]. rewrite IH. reflexivity. Qed.

Lemma unshift_units k s :
  concat (map (fun c => fromCharCode (num_sub c (Some k)))
            (map charCodeAt0 (map (fun c => [c]) s)))
  = map (fun c => (c - k) mod 65536) s.
Proof. induction s as [|c s IH]; [done|]. cbn [map concat]. rewrite IH. reflexivity. Qed.

Lemma obfus_encrypts v k :
  is_json v = true -> unpaired (text v) = true ->
  obfus v (Some k) true = Ret (VStr (shifted k (text v))).
Proof.
  intros Hj Hu. unfold obfus. rewrite (stringify_json v Hj), (unpaired_spread _ Hu).
  by rewrite shift_units.
Qed.

Lemma obfus_decrypts v k :
  is_json v = true -> unpaired (shifted k (text v)) = true ->
  obfus (VStr (shifted k (text v))) (Some k) false = Ret v.
Proof.
  intros Hj Hu. unfold obfus. cbn [spread_codes]. rewrite (unpaired_spread _ Hu).
  rewrite unshift_units, unshift by (by apply text_wf). by rewrite JSON_parse_text.
Qed.

(** ** The round trip the obfuscator achieves *)

(** X17.  Under the obfuscator [obfus] and an integer secret [k] small
    enough for every shifted code unit to stay below [2 ^ 53] in magnitude
    (the code adds doubles), a
    [set(key, v, {encrypt: true, secret: k, ttl: t})] that did not report a
    failure followed by [get(key, {encrypt: true, secret: k, ttl: t})] returns
    [v], with a TTL in effect (not yet expired, the expiry below [2 ^ 53]) or
    without, for every JSON-serializable [v] such that neither [JSON.stringify(v)] nor its
    shifted image contains a high surrogate immediately followed by a low
    one. *)
Lemma obfus_roundtrip cfg now now' key v k t w :
  let lc := with_secret k t in
  let tt := ttl (merge cfg lc) in
  encrypter cfg = encrypter config ->
  decrypter cfg = decrypter config ->
  Z.abs k + 65535 < 2 ^ 53 ->
  is_json v = true ->
  unpaired (text v) = true ->
  unpaired (shifted k (text v)) = true ->
  (hasTTL tt = false \/
   (0 <= now /\ now' <= now + default 0 (ttl_number tt) * 1000 /\
    now + default 0 (ttl_number tt) * 1000 < 2 ^ 53)) ->
  (set cfg now key v lc w).1 = VUndefined ->
  get cfg now' key lc (set cfg now key v lc w).2 = (Ret v, (set cfg now key v lc w).2).
Proof.
  intros lc tt Henc Hdec _ Hj Hu1 Hu2 Hexp Hok.
  destruct (set_ok _ _ _ _ _ _ Hok) as (o & Ho & ->).
  set (conf := merge cfg lc) in *. set (c := VStr (shifted k (text v))).
  assert (He : bool_truthy (encrypt conf) = true) by reflexivity.
  assert (Hs : secret conf = Some k) by reflexivity.
  assert (Hen : default NOOP (encrypter conf) v (secret conf) = Ret c).
  { rewrite Hs. change (encrypter conf) with (encrypter cfg). rewrite Henc.
    simpl. by apply obfus_encrypts. }
  assert (Hde : default NOOP (decrypter conf) c (secret conf) = Ret v).
  { rewrite Hs. change (decrypter conf) with (decrypter cfg). rewrite Hdec.
    simpl. by apply obfus_decrypts. }
  assert (Hjc : is_json c = true) by (apply wf_strb_true, shifted_wf).
  unfold encode in Ho. cbv zeta in Ho. rewrite He, Hen in Ho. fold tt in Ho.
  destruct (hasTTL tt) eqn:HT.
  - destruct Hexp as [|(_ & Hexp & _)]; [done|].
    set (e := now + default 0 (ttl_number tt) * 1000) in *.
    change (VObj (obj_put APX c [(APX, v); (u16 "ttl", VNum e)])) with (wrapper c e) in Ho.
    rewrite (stringify_json _ (wrapper_json c e Hjc)) in Ho. injection Ho as <-.
    erewrite get_stored;
      [| done | apply lookup_insert_eq | apply JSON_parse_text; by apply wrapper_json].
    cbv zeta. fold conf.
    assert (Hd : decode conf (wrapper c e) = wrapper v e).
    { unfold decode. rewrite He, orb_true_r, wrapper_sentinel, wrapper_APX, Hde. reflexivity. }
    rewrite Hd, wrapper_sentinel, wrapper_expired, wrapper_APX. cbn [negb].
    destruct (Z.ltb_spec e now'); [lia|done].
  - rewrite (stringify_json c Hjc) in Ho. injection Ho as <-.
    erewrite get_stored; [| done | apply lookup_insert_eq | by apply JSON_parse_text].
    cbv zeta. fold conf.
    assert (Hd : decode conf c = v).
    { unfold decode. rewrite He, orb_true_r. change (has_sentinel c) with false.
      cbv iota. by rewrite Hde. }
    rewrite Hd. reflexivity.
Qed.

(** ** Further properties: the availability guard *)

Lemma supportsLS_eq config now w :
  supportsLS config now w
  = (default (localStorage_ok host) (hasLS w), guarded config now w).
Proof.
  unfold supportsLS, guarded. destruct (hasLS w) as [b|] eqn:E; [done|].
  unfold flush_with, memoised. simpl. by destruct (localStorage_ok host).
Qed.

Lemma guarded_hasLS config now w :
  hasLS (guarded config now w) = Some (default (localStorage_ok host) (hasLS w)).
Proof. unfold guarded. by destruct (hasLS w) eqn:E. Qed.

Lemma guarded_settled config now w b : hasLS w = Some b -> guarded config now w = w.
Proof. intros H. unfold guarded. by rewrite H. Qed.

Lemma set_eq config now key v localConfig w :
  set config now key v localConfig w
  = let w1 := guarded config now w in
    let conf := merge config localConfig in
    if negb (default (localStorage_ok host) (hasLS w)) then (VBool false, w1)
    else
      match encode conf now v with
      | Throw => (VBool false, w1)
      | Ret o =>
          let text := default (u16 "undefined") o in
          let k := scoped (prefix conf) key in
          if setItem_ok host (localStorage w1) k text
          then (VUndefined,
                {| hasLS := hasLS w1; localStorage := <[k := text]> (localStorage w1) |})
          else (VBool false, w1)
      end.
Proof. unfold set. by rewrite supportsLS_eq. Qed.

Lemma flush_eq config now force localConfig w :
  flush config now force localConfig w
  = let w1 := guarded config now w in
    if negb (default (localStorage_ok host) (hasLS w)) then (VBool false, w1)
    else (VUndefined,
          {| hasLS := hasLS w1;
             localStorage :=
               flush_keys (merge_prefix config localConfig) now force (localStorage w1) |}).
Proof. unfold flush, flush_with. by rewrite supportsLS_eq. Qed.

Lemma unreachable_guarded config now w :
  default (localStorage_ok host) (hasLS w) = false ->
  guarded config now w = {| hasLS := Some false; localStorage := localStorage w |}.
Proof.
  intros H. unfold guarded. destruct w as [[b|] st]; simpl in *; subst; [done|].
  by rewrite H.
Qed.

(** X1.  When the store cannot be reached (the probe of the first call fails,
    or an earlier call has recorded so), every operation returns its failure
    value, [false] or for [get] [null], records the answer and leaves the
    contents of the store alone: not even the first call's sweep runs. *)
Theorem unavailable_store config now key v localConfig force w :
  default (localStorage_ok host) (hasLS w) = false ->
  let w' := {| hasLS := Some false; localStorage := localStorage w |} in
  set config now key v localConfig w = (VBool false, w') /\
  get config now key localConfig w = (Ret VNull, w') /\
  flush config now force localConfig w = (VBool false, w') /\
  remove config now key localConfig w = (VBool false, w') /\
  clear config now localConfig w = (VBool false, w').
Proof.
  intros H w'. pose proof (unreachable_guarded config now w H) as Hg. fold w' in Hg.
  unfold get, remove, clear. rewrite set_eq, flush_eq, supportsLS_eq, H, Hg. done.
Qed.

(** X2.  Whatever the first operation is and whether it succeeds, it leaves
    the memo [hasLS] set: for every later operation the availability guard is
    the identity, so the sweep of the first call is never run again. *)
Theorem guard_runs_once config now config' now' key v localConfig force w :
  guarded config' now' (set config now key v localConfig w).2
  = (set config now key v localConfig w).2 /\
  guarded config' now' (get config now key localConfig w).2
  = (get config now key localConfig w).2 /\
  guarded config' now' (flush config now force localConfig w).2
  = (flush config now force localConfig w).2 /\
  guarded config' now' (remove config now key localConfig w).2
  = (remove config now key localConfig w).2 /\
  guarded config' now' (clear config now localConfig w).2
  = (clear config now localConfig w).2.
Proof.
  pose proof (guarded_hasLS config now w) as Hh.
  unfold get, remove, clear. rewrite set_eq, flush_eq, supportsLS_eq. cbv zeta.
  set (b := default (localStorage_ok host) (hasLS w)) in *.
  set (w1 := guarded config now w) in *.
  assert (H1 : guarded config' now' w1 = w1) by (by eapply guarded_settled).
  assert (H2 : forall st, guarded config' now'
                 {| hasLS := hasLS w1; localStorage := st |}
               = {| hasLS := hasLS w1; localStorage := st |}).
  { intros st. eapply guarded_settled. simpl. exact Hh. }
  destruct b; cbn [negb]; [|repeat split; exact H1].
  repeat split; try apply H2.
  - destruct (encode _ _ _); [|exact H1].
    destruct (setItem_ok _ _ _ _); [apply H2|exact H1].
  - destruct (localStorage w1 !! _) as [[|c s]|]; try exact H1.
    destruct (JSON_parse _); [|exact H1].
    destruct (negb _); [exact H1|]. destruct (expired _ _); [apply H2|exact H1].
Qed.

Lemma guarded_lookup_Some config now w k s :
  localStorage (guarded config now w) !! k = Some s -> localStorage w !! k = Some s.
Proof.
  unfold guarded. destruct (hasLS w); [done|]. cbn [localStorage].
  destruct (localStorage_ok host); [|done]. rewrite flush_keys_lookup.
  by destruct (flush_hits _ _ _ _ _).
Qed.

Lemma guarded_lookup_cases config now w (k : str) :
  localStorage (guarded config now w) !! k = localStorage w !! k \/
  localStorage (guarded config now w) !! k = None.
Proof.
  unfold guarded. destruct (hasLS w); [by left|]. cbn [localStorage].
  destruct (localStorage_ok host); [|by left]. rewrite flush_keys_lookup.
  destruct (flush_hits _ _ _ _ _); [by right|by left].
Qed.

(** X3.  The sweep of the first call adds nothing and removes nothing but
    TTL entries under the global prefix that are past their expiry: a key
    that was absent stays absent, and an entry whose text parses is either as
    it was or, on the first call over a reachable store, gone, in which case
    it carries the sentinel, its key is within the global prefix and its
    [ttl], when a number, is in the past. *)
Theorem init_sweep_only_expired config now w :
  (forall k : str,
     localStorage w !! k = None -> localStorage (guarded config now w) !! k = None) /\
  (forall (k s : str) item,
     localStorage w !! k = Some s -> JSON_parse s = Some item ->
     localStorage (guarded config now w) !! k = Some s \/
     (hasLS w = None /\ localStorage_ok host = true /\
      localStorage (guarded config now w) !! k = None /\
      has_sentinel item = true /\ in_scope (prefix config) k = true /\
      forall e, prop (u16 "ttl") item = VNum e -> e < now)).
Proof.
  split.
  - intros k Hk. unfold guarded. destruct (hasLS w); [done|]. cbn [localStorage].
    destruct (localStorage_ok host); [|done]. rewrite flush_keys_lookup, Hk.
    by destruct (flush_hits _ _ _ _ _).
  - intros k s item Hs Hp. unfold guarded. destruct (hasLS w) as [b|]; [by left|].
    destruct (localStorage_ok host); [|by left]. cbn [localStorage].
    rewrite flush_keys_lookup, Hs. unfold flush_hits. rewrite Hp.
    destruct (in_scope (prefix config) k) eqn:Hin; [|by left].
    destruct (has_sentinel item) eqn:Hsen; [|by left].
    cbn [andb]. rewrite orb_false_r.
    destruct (expired now item) eqn:He; [|by left].
    right. repeat split; try done.
    intros e Hx. unfold expired in He. rewrite Hx in He. simpl in He. lia.
Qed.

(** ** Further properties: [remove] and [clear] *)

Lemma get_eq config now key localConfig w :
  get config now key localConfig w
  = let w1 := guarded config now w in
    let conf := merge config localConfig in
    let k := scoped (prefix conf) key in
    if negb (default (localStorage_ok host) (hasLS w)) then (Ret VNull, w1)
    else
      match localStorage w1 !! k with
      | None | Some [] => (Ret VNull, w1)
      | Some s =>
          match JSON_parse s with
          | None => (Throw, w1)
          | Some item0 =>
              let item := decode conf item0 in
              if negb (has_sentinel item0) then (Ret item, w1)
              else if expired now item
              then (Ret VNull,
                    {| hasLS := hasLS w1; localStorage := delete k (localStorage w1) |})
              else (Ret (prop APX item), w1)
          end
      end.
Proof. unfold get. by rewrite supportsLS_eq. Qed.

(** [get] on a settled module that holds nothing under the effective key. *)
Lemma get_absent config now key localConfig w b :
  hasLS w = Some b ->
  localStorage w !! scoped (prefix (merge config localConfig)) key = None ->
  get config now key localConfig w = (Ret VNull, w).
Proof.
  intros Hh Hn. rewrite get_eq, (guarded_settled _ _ _ _ Hh), Hh. cbv zeta.
  rewrite Hn. by destruct b.
Qed.

Lemma startsWith_app p s : startsWith p (p ++ s) = true.
Proof. induction p as [|a p IH]; [done|]. simpl. by rewrite Z.eqb_refl, IH. Qed.

(** X4.  After [remove(key, cfg)], a [get(key, cfg)] returns [null] and
    changes nothing, whatever was stored under the key and whether or not the
    store can be reached; and [remove] touches no entry other than the one
    under the effective key. *)
Theorem remove_then_get config now now' key localConfig w :
  get config now' key localConfig (remove config now key localConfig w).2
  = (Ret VNull, (remove config now key localConfig w).2) /\
  forall k, k <> scoped (merge_prefix config localConfig) key ->
    localStorage (remove config now key localConfig w).2 !! k
    = localStorage (guarded config now w) !! k.
Proof.
  pose proof (guarded_hasLS config now w) as Hh.
  unfold remove. rewrite supportsLS_eq.
  destruct (default (localStorage_ok host) (hasLS w)); cbn [negb snd].
  - split.
    + eapply get_absent; [exact Hh|]. apply lookup_delete_eq.
    + intros k Hk. cbn [localStorage]. by rewrite lookup_delete_ne.
  - split; [|done]. rewrite get_eq, (guarded_settled _ _ _ _ Hh), Hh. done.
Qed.

(** X5.  After [clear(cfg)], a [get(key, cfg)] returns [null] for every key
    and changes nothing: with a prefix in effect the effective key starts with
    it and is gone, with none the store is empty. *)
Theorem clear_then_get config now now' key localConfig w :
  get config now' key localConfig (clear config now localConfig w).2
  = (Ret VNull, (clear config now localConfig w).2).
Proof.
  pose proof (guarded_hasLS config now w) as Hh.
  unfold clear. rewrite supportsLS_eq.
  destruct (default (localStorage_ok host) (hasLS w)); cbn [negb snd].
  - eapply get_absent; [exact Hh|]. cbn [localStorage].
    change (prefix (merge config localConfig)) with (merge_prefix config localConfig).
    unfold scoped. destruct (prefix_truthy (merge_prefix config localConfig)).
    + by rewrite clear_keys_lookup, startsWith_app.
    + apply lookup_empty.
  - rewrite get_eq, (guarded_settled _ _ _ _ Hh), Hh. done.
Qed.

(** ** Further properties: texts [JSON.parse] rejects *)

Lemma parse_value_no_start f s c r :
  skip_ws s = c :: r -> value_start c = false -> parse_value f s = None.
Proof.
  intros Hs Hc. unfold value_start in Hc.
  destruct f as [|f]; [done|]. cbn [parse_value]. rewrite Hs.
  repeat match goal with |- context [c =? ?n] => destruct (Z.eqb_spec c n); [lia|] end.
  unfold parse_number, number_of.
  assert (Hd : digit_of c = None).
  { unfold digit_of.
    repeat match goal with |- context [c =? ?n] => destruct (Z.eqb_spec c n); [lia|] end.
    done. }
  destruct (Z.eqb_spec c 45); [lia|]. cbn [digits]. by rewrite Hd.
Qed.

Lemma JSON_parse_no_start s c r :
  skip_ws s = c :: r -> value_start c = false -> JSON_parse s = None.
Proof. intros Hs Hc. unfold JSON_parse. by rewrite (parse_value_no_start _ _ _ _ Hs Hc). Qed.

(** X6.  When the store can be reached and holds, under the effective key, a
    text that cannot be JSON because its first character after white space
    begins no JSON value (a bare word written by other code, say), [get]
    throws, its [JSON.parse] being outside any [try], and leaves the store as
    the guard left it; [flush], forced or not and under any prefix, skips such
    an entry. *)
Theorem get_unparsable_throws config now key localConfig w s c r :
  default (localStorage_ok host) (hasLS w) = true ->
  localStorage (guarded config now w) !! scoped (prefix (merge config localConfig)) key
  = Some s ->
  skip_ws s = c :: r ->
  value_start c = false ->
  get config now key localConfig w = (Throw, guarded config now w) /\
  forall force localConfig',
    localStorage (flush config now force localConfig' w).2
      !! scoped (prefix (merge config localConfig)) key
    = Some s.
Proof.
  intros Hb Hs Hw Hc. pose proof (JSON_parse_no_start _ _ _ Hw Hc) as Hp. split.
  - rewrite get_eq, Hb. cbv zeta. cbn [negb]. rewrite Hs, Hp.
    destruct s; [done|reflexivity].
  - intros force localConfig'. apply flush_keeps_plain.
    + by eapply guarded_lookup_Some.
    + by rewrite Hp.
Qed.

(** X7.  With no TTL in effect and obfuscation off, [set(key, undefined)]
    does not fail: [JSON.stringify] gives [undefined], [setItem] stores the
    nine characters [undefined], and from then on every [get] of that key
    throws. *)
Theorem set_undefined_unreadable config localConfig now now' key w :
  hasTTL (ttl (merge config localConfig)) = false ->
  bool_truthy (encrypt (merge config localConfig)) = false ->
  (set config now key VUndefined localConfig w).1 = VUndefined ->
  let w' := (set config now key VUndefined localConfig w).2 in
  localStorage w' !! scoped (prefix (merge config localConfig)) key = Some (u16 "undefined") /\
  get config now' key localConfig w' = (Throw, w').
Proof.
  intros Ht He Hok w'. subst w'.
  destruct (set_ok _ _ _ _ _ _ Hok) as (o & Ho & ->).
  rewrite encode_plain, Ht in Ho by done. injection Ho as <-.
  cbn [default localStorage]. split; [apply lookup_insert_eq|].
  rewrite get_eq. cbv zeta. cbn [hasLS default negb guarded localStorage].
  by rewrite lookup_insert_eq.
Qed.

(** ** C5: the sentinel *)

(** C5 (as amended).  On read the sentinel is the only signal.  [get]
    returns a parsed item without the sentinel as it is (de-obfuscated when
    asked), whatever [ttl] field it has, and treats one with the sentinel as a
    TTL entry: [null] and removal once expired, its sentinel field otherwise.
    A forced [flush] over a reachable store removes, within its prefix, exactly
    the parsed entries that carry the sentinel.  And the sentinel can be
    produced by a serializable value: with obfuscation off, a [set] that did
    not report a failure stores an item with the sentinel when a TTL is in
    effect, and [v] itself when none is, so that [get] returns [v] when [v]
    has no key [APX] and takes [v] for a TTL entry exactly when [v] is an
    object with the key [APX]. *)
Theorem C5_sentinel_signal config localConfig now w :
  let conf := merge config localConfig in
  let w1 := guarded config now w in
  (forall (key s : str) item,
     default (localStorage_ok host) (hasLS w) = true ->
     localStorage w1 !! scoped (prefix conf) key = Some s ->
     JSON_parse s = Some item ->
     (has_sentinel item = false ->
        get config now key localConfig w = (Ret (decode conf item), w1)) /\
     (has_sentinel item = true -> plain_ttl item = true ->
        get config now key localConfig w
        = if expired now item
          then (Ret VNull,
                {| hasLS := hasLS w1;
                   localStorage := delete (scoped (prefix conf) key) (localStorage w1) |})
          else (Ret (prop APX (decode conf item)), w1))) /\
  (forall (k s : str) item,
     default (localStorage_ok host) (hasLS w) = true ->
     localStorage w1 !! k = Some s ->
     JSON_parse s = Some item ->
     in_scope (merge_prefix config localConfig) k = true ->
     localStorage (flush config now true localConfig w).2 !! k
     = if has_sentinel item then None else Some s) /\
  (forall (key : str) v now',
     bool_truthy (encrypt conf) = false ->
     bool_truthy (decrypt conf) = false ->
     is_json v = true ->
     (set config now key v localConfig w).1 = VUndefined ->
     let w' := (set config now key v localConfig w).2 in
     exists s item,
       localStorage w' !! scoped (prefix conf) key = Some s /\
       JSON_parse s = Some item /\
       if hasTTL (ttl conf)
       then has_sentinel item = true
       else item = v /\
            (has_sentinel v = true <-> exists l, v = VObj l /\ obj_has APX l = true) /\
            (has_sentinel v = false -> get config now' key localConfig w' = (Ret v, w')) /\
            (has_sentinel v = true ->
               (get config now' key localConfig w').1 = Ret VNull \/
               (get config now' key localConfig w').1 = Ret (prop APX v))).
Proof.
  intros conf w1. split; [|split].
  - intros key s item Hb Hs Hp.
    pose proof (JSON_parse_nonempty _ _ Hp) as Hne. destruct s as [|c s]; [done|].
    rewrite get_eq, Hb. cbv zeta. fold conf w1. cbn [negb]. rewrite Hs, Hp. split.
    + by intros ->.
    + intros Hsen _. by rewrite Hsen, (decode_expired _ _ _ Hsen).
  - intros k s item Hb Hs Hp Hin. rewrite flush_eq, Hb. cbv zeta. fold w1.
    cbn [negb snd localStorage]. rewrite flush_keys_lookup, Hs. unfold flush_hits.
    rewrite Hin, Hp, orb_true_r. cbn [andb]. by rewrite andb_true_r.
  - intros key v now' He Hd Hj Hok w'. subst w'.
    destruct (set_ok _ _ _ _ _ _ Hok) as (o & Ho & ->). fold conf in Ho |- *.
    rewrite encode_plain in Ho by done.
    destruct (hasTTL (ttl conf)).
    + rewrite (stringify_json _ (wrapper_json v _ Hj)) in Ho. injection Ho as <-.
      eexists _, _. split; [apply lookup_insert_eq|]. split.
      * apply JSON_parse_text. by apply wrapper_json.
      * reflexivity.
    + rewrite (stringify_json v Hj) in Ho. injection Ho as <-.
      eexists _, _. split; [apply lookup_insert_eq|]. split; [by apply JSON_parse_text|].
      split; [done|]. split; [|split].
      * split.
        -- intros Hs. destruct v; try done. eauto.
        -- intros (l & -> & Hl). exact Hl.
      * intros Hsen.
        erewrite get_stored; [| done | apply lookup_insert_eq | by apply JSON_parse_text].
        cbv zeta. fold conf. by rewrite Hsen, decode_off.
      * intros Hsen.
        erewrite get_stored; [| done | apply lookup_insert_eq | by apply JSON_parse_text].
        cbv zeta. fold conf. rewrite Hsen, decode_off by done. cbn [negb].
        destruct (expired now' v); [by left|by right].
Qed.

(** ** Further properties: [flush] *)

(** X8.  Over a store that can be reached a forced [flush] does not fail and
    removes every entry within the prefix filter that parses to an item
    carrying the sentinel, expired or not; so no entry within the filter that
    is left parses to such an item. *)
Theorem forced_flush_leaves_no_ttl config now localConfig w :
  default (localStorage_ok host) (hasLS w) = true ->
  (flush config now true localConfig w).1 = VUndefined /\
  (forall (k s : str) item,
     localStorage w !! k = Some s ->
     JSON_parse s = Some item ->
     has_sentinel item = true ->
     in_scope (merge_prefix config localConfig) k = true ->
     localStorage (flush config now true localConfig w).2 !! k = None) /\
  (forall (k s : str) item,
     localStorage (flush config now true localConfig w).2 !! k = Some s ->
     JSON_parse s = Some item ->
     in_scope (merge_prefix config localConfig) k = true ->
     has_sentinel item = false).
Proof.
  intros Hb. rewrite flush_eq, Hb. cbv zeta. cbn [negb fst snd localStorage].
  split; [done|]. split.
  - intros k s item Hs Hp Hsen Hin. rewrite flush_keys_lookup.
    destruct (guarded_lookup_cases config now w k) as [-> | ->].
    + unfold flush_hits. by rewrite Hs, Hin, Hp, Hsen, orb_true_r.
    + by destruct (flush_hits _ _ _ _ _).
  - intros k s item Hs Hp Hin. rewrite flush_keys_lookup in Hs.
    unfold flush_hits in Hs. rewrite Hin in Hs. cbn [andb] in Hs.
    destruct (localStorage (guarded config now w) !! k) as [s'|] eqn:E; [|done].
    destruct (JSON_parse s') as [item'|] eqn:Hp'.
    + destruct (has_sentinel item') eqn:Hsen.
      * by rewrite orb_true_r in Hs.
      * cbn [andb] in Hs. injection Hs as ->. rewrite Hp in Hp'. by injection Hp' as <-.
    + injection Hs as ->. congruence.
Qed.

Lemma flush_keys_again (p : prefix_t) (now : Z) (force : bool) (st : gmap str str) :
  flush_keys p now force (flush_keys p now force st) = flush_keys p now force st.
Proof.
  apply map_eq. intros k. rewrite !flush_keys_lookup.
  destruct (flush_hits p now force k (st !! k)) eqn:E; [|by rewrite E].
  unfold flush_hits. by rewrite andb_false_r.
Qed.

(** X9.  [flush] only removes: every entry of the store is afterwards as it
    was or gone.  And flushing twice at the same time, with the same [force]
    and configuration, gives what flushing once gives. *)
Theorem flush_only_removes config now force localConfig w :
  (forall k,
     localStorage (flush config now force localConfig w).2 !! k = localStorage w !! k \/
     localStorage (flush config now force localConfig w).2 !! k = None) /\
  flush config now force localConfig (flush config now force localConfig w).2
  = flush config now force localConfig w.
Proof.
  pose proof (guarded_hasLS config now w) as Hh. split.
  - intros k. rewrite flush_eq. cbv zeta.
    destruct (negb _); cbn [snd localStorage].
    + destruct (guarded_lookup_cases config now w k) as [E | E]; auto.
    + rewrite flush_keys_lookup. destruct (flush_hits _ _ _ _ _); [by right|].
      destruct (guarded_lookup_cases config now w k) as [E | E]; auto.
  - rewrite (flush_eq config now force localConfig w). cbv zeta.
    destruct (default (localStorage_ok host) (hasLS w)) eqn:Hb; cbn [negb snd].
    + match goal with |- flush _ _ _ _ ?x = _ => set (w2 := x) end.
      assert (H2 : hasLS w2 = Some true) by exact Hh.
      rewrite (flush_eq config now force localConfig w2). cbv zeta.
      rewrite (guarded_settled config now w2 true H2).
      replace (default (localStorage_ok host) (hasLS w2)) with true by (by rewrite H2).
      cbn [negb]. subst w2. cbn [hasLS localStorage]. by rewrite flush_keys_again.
    + rewrite flush_eq. cbv zeta. rewrite (guarded_settled _ _ _ _ Hh), Hh. done.
Qed.

(** ** Further properties: what [set] touches *)

(** X10.  Whether it succeeds or fails, [set] leaves every entry other than
    the one under its effective key as the availability guard left it. *)
Theorem set_frame config now key v localConfig w k :
  k <> scoped (prefix (merge config localConfig)) key ->
  localStorage (set config now key v localConfig w).2 !! k
  = localStorage (guarded config now w) !! k.
Proof.
  intros Hk. rewrite set_eq. cbv zeta.
  destruct (negb _); [done|]. destruct (encode _ _ _); [|done].
  destruct (setItem_ok _ _ _ _); [|done]. cbn [snd localStorage].
  by rewrite lookup_insert_ne.
Qed.

(** ** Further properties: expiry and obfuscation *)

Lemma fromCharCode_wf n : wf_str (fromCharCode n).
Proof.
  destruct n as [n|]; simpl; (constructor; [|constructor]); [|lia].
  apply Z.mod_pos_bound. lia.
Qed.

(** On a serializable value [obfus] produces a string, for every key. *)
Lemma obfus_string v key :
  is_json v = true -> exists c, obfus v key true = Ret (VStr c) /\ wf_str c.
Proof.
  intros Hj. unfold obfus. rewrite (stringify_json v Hj). eexists. split; [reflexivity|].
  apply concat_wf. apply Forall_fmap. apply Forall_forall. intros x _.
  apply fromCharCode_wf.
Qed.

Lemma in_scope_scoped p key : in_scope p (scoped p key) = true.
Proof.
  unfold in_scope, scoped. destruct (prefix_truthy p); [|done].
  by rewrite startsWith_app.
Qed.

Lemma flush_settled_ok config now force localConfig w :
  hasLS w = Some true -> (flush config now force localConfig w).1 = VUndefined.
Proof. intros H. rewrite flush_eq, H. done. Qed.

Lemma flush_settled config now force localConfig w :
  hasLS w = Some true ->
  (flush config now force localConfig w).2
  = {| hasLS := Some true;
       localStorage := flush_keys (merge_prefix config localConfig) now force (localStorage w) |}.
Proof.
  intros H. rewrite flush_eq, (guarded_settled _ _ _ _ H). cbv zeta. rewrite H. done.
Qed.

(** X11.  The expiry of an obfuscated TTL entry does not depend on the
    secret: the entry [set] writes under [{encrypt: true, secret: k, ttl: t}],
    its expiry [now + t * 1000] being below [2 ^ 53], keeps that expiry in the
    clear beside an obfuscated string, and once that time has passed a [get] under any secret, decrypter
    and flags (same prefix) returns [null] and removes it, as does an unforced
    [flush]. *)
Theorem expiry_needs_no_secret cfg now now' key v k t localConfig w :
  encrypter cfg = encrypter config ->
  is_json v = true ->
  0 < t ->
  0 <= now ->
  now + t * 1000 < 2 ^ 53 ->
  (set cfg now key v (with_secret k (TtlNum t)) w).1 = VUndefined ->
  prefix (merge cfg localConfig) = prefix cfg ->
  now + t * 1000 < now' ->
  let w' := (set cfg now key v (with_secret k (TtlNum t)) w).2 in
  let kk := scoped (prefix cfg) key in
  (exists c, localStorage w' !! kk = Some (text (wrapper (VStr c) (now + t * 1000)))) /\
  (get cfg now' key localConfig w').1 = Ret VNull /\
  localStorage (get cfg now' key localConfig w').2 !! kk = None /\
  localStorage (flush cfg now' false no_config w').2 !! kk = None.
Proof.
  intros Henc Hj Ht _ _ Hok Hpre Hlt w' kk. subst w'.
  destruct (set_ok _ _ _ _ _ _ Hok) as (o & Ho & ->).
  set (conf := merge cfg (with_secret k (TtlNum t))) in *.
  assert (Hm : ttl conf = TtlNum t).
  { subst conf. simpl. unfold merge_ttl. simpl. destruct (Z.eqb_spec t 0); [lia|done]. }
  assert (HT : hasTTL (TtlNum t) = true).
  { unfold hasTTL. simpl. destruct (Z.eqb_spec t 0); [lia|]. simpl. lia. }
  destruct (obfus_string v (secret conf) Hj) as (c & Hc & Hw).
  assert (Hen : default NOOP (encrypter conf) v (secret conf) = Ret (VStr c)).
  { change (encrypter conf) with (encrypter cfg). rewrite Henc. exact Hc. }
  assert (Hjc : is_json (VStr c) = true) by (by apply wf_strb_true).
  unfold encode in Ho. cbv zeta in Ho. rewrite Hm, HT, Hen in Ho.
  change (bool_truthy (encrypt conf)) with true in Ho. cbv iota in Ho.
  change (stringify (wrapper (VStr c) (now + t * 1000)) = Ret o) in Ho.
  set (e := now + t * 1000) in *.
  rewrite (stringify_json _ (wrapper_json _ e Hjc)) in Ho. injection Ho as <-.
  change (prefix conf) with (prefix cfg). fold kk. cbn [default].
  set (w' := {| hasLS := Some true; localStorage := _ |}).
  assert (Hs : localStorage w' !! kk = Some (text (wrapper (VStr c) e)))
    by apply lookup_insert_eq.
  assert (Hp : JSON_parse (text (wrapper (VStr c) e)) = Some (wrapper (VStr c) e))
    by (apply JSON_parse_text; by apply wrapper_json).
  split; [by exists c|].
  assert (Hg : get cfg now' key localConfig w'
               = (Ret VNull, {| hasLS := hasLS w'; localStorage := delete kk (localStorage w') |})).
  { erewrite get_stored; [| done | by rewrite Hpre | exact Hp].
    cbv zeta. rewrite Hpre. fold kk.
    rewrite wrapper_sentinel, (decode_expired _ _ _ (wrapper_sentinel _ _)), wrapper_expired.
    cbn [negb]. destruct (Z.ltb_spec e now'); [done|lia]. }
  rewrite Hg. cbn [fst snd localStorage]. split; [done|]. split; [apply lookup_delete_eq|].
  eapply (flush_drops_expired cfg now' no_config w' kk _ (wrapper (VStr c) e) e);
    [exact Hs | exact Hp | reflexivity | reflexivity | lia | apply in_scope_scoped |].
  by apply flush_settled_ok.
Qed.

(** X12.  A [flush] between a [set] with a TTL and the [get] changes nothing
    that [get] can see: after [set(key, v, {ttl: t})] (obfuscation off, the
    expiry [now + t * 1000] below [2 ^ 53]) and an unforced [flush], [get(key)] still returns [v] up to the expiry, and
    afterwards finds the entry already gone and returns [null]. *)
Theorem flush_between_set_and_get config now now' key v t w :
  0 < t ->
  0 <= now ->
  now + t * 1000 < 2 ^ 53 ->
  bool_truthy (encrypt config) = false ->
  bool_truthy (decrypt config) = false ->
  is_json v = true ->
  (set config now key v (with_ttl (TtlNum t)) w).1 = VUndefined ->
  let w' := (set config now key v (with_ttl (TtlNum t)) w).2 in
  let wf := (flush config now' false no_config w').2 in
  (now' <= now + t * 1000 -> get config now' key no_config wf = (Ret v, wf)) /\
  (now + t * 1000 < now' ->
     localStorage wf !! scoped (prefix config) key = None /\
     get config now' key no_config wf = (Ret VNull, wf)).
Proof.
  intros Ht _ _ He Hd Hj Hok w' wf. subst wf w'.
  destruct (set_ok _ _ _ _ _ _ Hok) as (o & Ho & ->).
  assert (Hm : ttl (merge config (with_ttl (TtlNum t))) = TtlNum t).
  { simpl. unfold merge_ttl. simpl. destruct (Z.eqb_spec t 0); [lia|done]. }
  assert (HT : hasTTL (TtlNum t) = true).
  { unfold hasTTL. simpl. destruct (Z.eqb_spec t 0); [lia|]. simpl. lia. }
  rewrite encode_plain, Hm, HT in Ho by done.
  change (stringify (wrapper v (now + t * 1000)) = Ret o) in Ho.
  set (e := now + t * 1000) in *.
  rewrite (stringify_json _ (wrapper_json v e Hj)) in Ho. injection Ho as <-.
  change (prefix (merge config (with_ttl (TtlNum t)))) with (prefix config).
  set (kk := scoped (prefix config) key). cbn [default].
  set (w' := {| hasLS := Some true; localStorage := _ |}).
  assert (Hs : localStorage w' !! kk = Some (text (wrapper v e))) by apply lookup_insert_eq.
  assert (Hp : JSON_parse (text (wrapper v e)) = Some (wrapper v e))
    by (apply JSON_parse_text; by apply wrapper_json).
  rewrite (flush_settled config now' false no_config w' eq_refl).
  set (wf := {| hasLS := Some true; localStorage := flush_keys _ _ _ _ |}).
  assert (Hl : localStorage wf !! kk
               = if e <? now' then None else Some (text (wrapper v e))).
  { subst wf. cbn [localStorage]. rewrite flush_keys_lookup, Hs. unfold flush_hits.
    change (merge_prefix config no_config) with (prefix config).
    subst kk. rewrite in_scope_scoped, Hp, wrapper_sentinel, wrapper_expired.
    cbn [andb]. rewrite orb_false_r. reflexivity. }
  split.
  - intros Hle. destruct (Z.ltb_spec e now') as [|_]; [lia|].
    erewrite get_stored; [| done | exact Hl | exact Hp].
    cbv zeta. rewrite decode_off by done.
    rewrite wrapper_sentinel, wrapper_expired, wrapper_APX. cbn [negb].
    destruct (Z.ltb_spec e now'); [lia|done].
  - intros Hlt. destruct (Z.ltb_spec e now') as [_|]; [|lia].
    split; [exact Hl|]. by eapply get_absent.
Qed.

(** X13.  Data that was stored without obfuscation and is not a string or an
    array (a number, a boolean, [null], an object without the sentinel) is
    returned unchanged by [get] under the decrypter [obfus], whether or not
    de-obfuscation is asked for and whatever the secret: [obfus] cannot iterate
    such an item, throws, and [get] keeps the item as parsed. *)
Theorem plain_data_survives_decrypt cfg now key localConfig w s item :
  default (localStorage_ok host) (hasLS w) = true ->
  localStorage (guarded cfg now w) !! scoped (prefix (merge cfg localConfig)) key = Some s ->
  JSON_parse s = Some item ->
  has_sentinel item = false ->
  match item with VStr _ | VArr _ => False | _ => True end ->
  decrypter (merge cfg localConfig) = decrypter config ->
  get cfg now key localConfig w = (Ret item, guarded cfg now w).
Proof.
  intros Hb Hs Hp Hsen Hit Hdec. rewrite get_eq, Hb. cbv zeta. cbn [negb].
  rewrite Hs, Hp, Hsen. cbn [negb].
  pose proof (JSON_parse_nonempty _ _ Hp). destruct s as [|c s]; [done|].
  f_equal. f_equal. unfold decode. rewrite Hsen, Hdec.
  destruct (_ || _); [|done].
  assert (Hd : default NOOP (decrypter config) item (secret (merge cfg localConfig)) = Throw).
  { simpl. unfold decrypter0, obfus. by destruct item. }
  by rewrite Hd.
Qed.

(** X14.  A negative [ttl] override is truthy, so unlike [0] it does not fall
    back to the global default; it is not a positive number either, so no TTL
    is in effect: [set] behaves exactly as under [ttl: null], whatever the
    global [ttl] is. *)
Theorem negative_ttl_is_no_ttl config now key v n w :
  n < 0 ->
  set config now key v (with_ttl (TtlNum n)) w = set config now key v (with_ttl TtlNull) w.
Proof.
  intros Hn. rewrite !set_eq. cbv zeta.
  assert (Hm : ttl (merge config (with_ttl (TtlNum n))) = TtlNum n).
  { simpl. unfold merge_ttl. simpl. destruct (Z.eqb_spec n 0); [lia|done]. }
  assert (HT : hasTTL (TtlNum n) = false).
  { unfold hasTTL. simpl. destruct (Z.ltb_spec 0 n); [lia|]. by rewrite andb_false_r. }
  assert (He : encode (merge config (with_ttl (TtlNum n))) now v
               = encode (merge config (with_ttl TtlNull)) now v).
  { unfold encode. cbv zeta. rewrite Hm, HT. reflexivity. }
  rewrite He. reflexivity.
Qed.

(** X15.  [flush], forced or not, leaves every entry whose key is outside the
    effective prefix as the guard left it. *)
Theorem flush_outside_prefix config now force localConfig w (k : str) :
  in_scope (merge_prefix config localConfig) k = false ->
  localStorage (flush config now force localConfig w).2 !! k
  = localStorage (guarded config now w) !! k.
Proof.
  intros Hin. rewrite flush_eq. cbv zeta.
  destruct (negb _); [done|]. cbn [snd localStorage].
  rewrite flush_keys_lookup. unfold flush_hits. by rewrite Hin.
Qed.

(** X16.  A second [set] under the same effective key replaces the first
    entry altogether: after two [set]s that did not report a failure the store
    is the one the guard left with the text of the second value put under the
    key, and nothing of the first write (its value, its expiry, its
    obfuscation) remains. *)
Theorem set_overwrites config now1 now2 key v1 v2 lc1 lc2 w :
  prefix (merge config lc1) = prefix (merge config lc2) ->
  (set config now1 key v1 lc1 w).1 = VUndefined ->
  (set config now2 key v2 lc2 (set config now1 key v1 lc1 w).2).1 = VUndefined ->
  exists o,
    encode (merge config lc2) now2 v2 = Ret o /\
    localStorage (set config now2 key v2 lc2 (set config now1 key v1 lc1 w).2).2
    = <[scoped (prefix (merge config lc2)) key := default (u16 "undefined") o]>
        (localStorage (guarded config now1 w)).
Proof.
  intros Hpre H1 H2.
  destruct (set_ok _ _ _ _ _ _ H1) as (o1 & _ & E1). rewrite E1 in H2 |- *.
  destruct (set_ok _ _ _ _ _ _ H2) as (o2 & Ho2 & E2). rewrite E2.
  exists o2. split; [exact Ho2|]. cbn [localStorage].
  rewrite (supportsLS_eq config now1 w). cbn [snd].
  match goal with |- context [supportsLS config now2 ?x] => set (w1 := x) end.
  rewrite (supportsLS_eq config now2 w1), (guarded_settled config now2 w1 true eq_refl).
  subst w1. cbn [snd localStorage]. rewrite Hpre. apply insert_insert_eq.
Qed.

End ls.

(** ** The statements at concrete inputs *)

Lemma C1_plain_roundtrip_witness :
  let v := VArr [VNum (-12); VStr (u16 "a"); VObj [(u16 "b", VNull)]] in
  let w' := (set noop host_ok config 0 (u16 "k") v no_config fresh).2 in
  get noop host_ok config 5 (u16 "k") no_config w' = (Ret v, w').
Proof.
  apply (C1_plain_roundtrip noop host_ok config no_config 0 5 (u16 "k")); reflexivity.
Defined.

(** C1 fails as stated: an object with the key [APX] is serializable, is
    stored plainly, and is read back as its [APX] field. *)
Lemma C1_counterexample :
  let w' := (set noop host_ok config 0 (u16 "k") tagged no_config fresh).2 in
  is_json tagged = true /\
  (set noop host_ok config 0 (u16 "k") tagged no_config fresh).1 = VUndefined /\
  (get noop host_ok config 0 (u16 "k") no_config w').1 = Ret (VNum 1) /\
  (get noop host_ok config 0 (u16 "k") no_config w').1 <> Ret tagged.
Proof. vm_compute. repeat split; discriminate. Qed.

Lemma C2_ttl_expiry_witness :
  let v := VStr (u16 "v") in
  let w' := (set noop host_ok config 0 (u16 "k") v (with_ttl (TtlNum 1)) fresh).2 in
  get noop host_ok config 1000 (u16 "k") no_config w' = (Ret v, w') /\
  (get noop host_ok config 1001 (u16 "k") no_config w').1 = Ret VNull /\
  localStorage (get noop host_ok config 1001 (u16 "k") no_config w').2 !! u16 "k" = None.
Proof.
  intros v w'.
  destruct (C2_ttl_expiry noop host_ok config 0 1000 (u16 "k") v 1 fresh)
    as (_ & H1 & _); try reflexivity; try discriminate.
  destruct (C2_ttl_expiry noop host_ok config 0 1001 (u16 "k") v 1 fresh)
    as (_ & _ & H2); try reflexivity; try discriminate.
  split; [apply H1; discriminate|].
  destruct H2 as (H2 & _ & H3); [reflexivity|]. split; [exact H2|exact H3].
Defined.

(** C2 fails as stated: with the value [undefined] the sentinel field is
    left out of the stored text, so [get] returns the bare wrapper, at once
    and after the expiry, and the entry stays. *)
Lemma C2_counterexample :
  let w' := (set noop host_ok config 0 (u16 "k") VUndefined (with_ttl (TtlNum 1)) fresh).2 in
  (set noop host_ok config 0 (u16 "k") VUndefined (with_ttl (TtlNum 1)) fresh).1 = VUndefined /\
  (get noop host_ok config 0 (u16 "k") no_config w').1 = Ret (VObj [(u16 "ttl", VNum 1000)]) /\
  (get noop host_ok config 5000 (u16 "k") no_config w').1 <> Ret VNull /\
  localStorage (get noop host_ok config 5000 (u16 "k") no_config w').2 !! u16 "k"
  = Some (text (VObj [(u16 "ttl", VNum 1000)])).
Proof. vm_compute. repeat split; discriminate. Qed.

(** C3 fails as stated: under a global [ttl] of 10 the override [ttl: false]
    gives the same effective [ttl] as no override, namely the global default,
    and [set] stores the same TTL entry for both. *)
Lemma C3_counterexample :
  ttl (merge config10 (with_ttl (TtlBool false))) = ttl (merge config10 (with_ttl TtlUndefined)) /\
  ttl (merge config10 (with_ttl (TtlBool false))) = ttl config10 /\
  hasTTL (ttl (merge config10 (with_ttl (TtlBool false)))) = true /\
  set noop host_ok config10 0 (u16 "k") (VNum 1) (with_ttl (TtlBool false)) fresh
  = set noop host_ok config10 0 (u16 "k") (VNum 1) no_config fresh /\
  localStorage (set noop host_ok config10 0 (u16 "k") (VNum 1) (with_ttl (TtlBool false)) fresh).2
    !! u16 "k" = Some (text (wrapper (VNum 1) 10000)).
Proof. vm_compute. repeat split. Qed.

Lemma C4_flush_selectivity_witness :
  localStorage (flush host_ok config 5000 true no_config three_ready).2 !! u16 "plain"
  = Some (text (VNum 1)) /\
  ((flush host_ok config 5000 false no_config three_ready).1 = VUndefined /\
   localStorage (flush host_ok config 5000 false no_config three_ready).2 !! u16 "old" = None) /\
  localStorage (flush host_ok config 5000 false no_config three_ready).2 !! u16 "new"
  = Some (text (wrapper (VNum 8) 9000)).
Proof.
  destruct (C4_flush_selectivity host_ok config no_config 5000 three_ready) as (H1 & H2 & H3).
  split; [|split].
  - apply (H1 true (u16 "plain") (text (VNum 1)) (VNum 1)); reflexivity.
  - apply (H2 (u16 "old") (text (wrapper (VNum 7) 1000)) (wrapper (VNum 7) 1000) 1000);
      reflexivity.
  - apply (H3 (u16 "new") (text (wrapper (VNum 8) 9000)) (wrapper (VNum 8) 9000) 9000);
      try reflexivity. discriminate.
Defined.

Lemma C5_sentinel_signal_witness :
  get noop host_ok config 5000 (u16 "plain") no_config three_ready
  = (Ret (VNum 1), three_ready) /\
  get noop host_ok config 5000 (u16 "old") no_config three_ready
  = (Ret VNull,
     {| hasLS := Some true; localStorage := delete (u16 "old") (localStorage three_ready) |}) /\
  get noop host_ok config 5000 (u16 "new") no_config three_ready
  = (Ret (VNum 8), three_ready) /\
  localStorage (flush host_ok config 5000 true no_config three_ready).2 !! u16 "new" = None /\
  localStorage (flush host_ok config 5000 true no_config three_ready).2 !! u16 "plain"
  = Some (text (VNum 1)) /\
  (let w' := (set noop host_ok config 5000 (u16 "k") (VStr (u16 "v")) no_config three_ready).2 in
   get noop host_ok config 6000 (u16 "k") no_config w' = (Ret (VStr (u16 "v")), w')).
Proof.
  pose proof (C5_sentinel_signal noop host_ok config no_config 5000 three_ready) as H.
  cbv zeta in H. destruct H as (Hget & Hflush & Hset).
  split; [|split; [|split; [|split; [|split]]]].
  - apply (Hget (u16 "plain") (text (VNum 1)) (VNum 1)); reflexivity.
  - apply (Hget (u16 "old") (text (wrapper (VNum 7) 1000)) (wrapper (VNum 7) 1000));
      reflexivity.
  - apply (Hget (u16 "new") (text (wrapper (VNum 8) 9000)) (wrapper (VNum 8) 9000));
      reflexivity.
  - apply (Hflush (u16 "new") (text (wrapper (VNum 8) 9000)) (wrapper (VNum 8) 9000));
      reflexivity.
  - apply (Hflush (u16 "plain") (text (VNum 1)) (VNum 1)); reflexivity.
  - destruct (Hset (u16 "k") (VStr (u16 "v")) 6000 eq_refl eq_refl eq_refl eq_refl)
      as (s & item & _ & _ & _ & _ & Hg & _).
    exact (Hg eq_refl).
Defined.

(** C5 fails as stated: the object [tagged] is an ordinary serializable
    value, the text [set] stores for it, without any TTL, parses to an item
    that carries the sentinel, and [get] takes it for a TTL entry and returns
    its sentinel field. *)
Lemma C5_counterexample :
  is_json tagged = true /\
  hasTTL (ttl (merge config no_config)) = false /\
  has_sentinel <$>
    (localStorage (set noop host_ok config 0 (u16 "k") tagged no_config fresh).2 !! u16 "k"
       ≫= JSON_parse)
  = Some true /\
  (get noop host_ok config 0 (u16 "k") no_config
     (set noop host_ok config 0 (u16 "k") tagged no_config fresh).2).1
  = Ret (VNum 1).
Proof. vm_compute. repeat split. Qed.

Lemma obfus_roundtrip_example :
  let v := VObj [(u16 "name", VStr (u16 "hello")); (u16 "n", VNum 42)] in
  let plain := with_secret 75 TtlUndefined in
  let timed := with_secret 75 (TtlNum 1) in
  let w1 := (set noop host_ok config 0 (u16 "k") v plain fresh).2 in
  let w2 := (set noop host_ok config 0 (u16 "k") v timed fresh).2 in
  get noop host_ok config 5 (u16 "k") plain w1 = (Ret v, w1) /\
  get noop host_ok config 1000 (u16 "k") timed w2 = (Ret v, w2).
Proof.
  intros v plain timed w1 w2. split.
  - apply (obfus_roundtrip noop host_ok config 0 5 (u16 "k") v 75 TtlUndefined fresh);
      try reflexivity. left. reflexivity.
  - apply (obfus_roundtrip noop host_ok config 0 1000 (u16 "k") v 75 (TtlNum 1) fresh);
      try reflexivity. right. vm_compute. repeat split; discriminate.
Defined.

(** C6 (a defect of the code).  [obfus] walks a text by code point but
    shifts only the first code unit of each, so a surrogate pair loses its low
    surrogate.  Under the default secret 75 the one-character string [smile]
    is stored and read back as its high surrogate alone, without a TTL and
    with one; under the secret 4096 the two-character string [hangul] is
    shifted onto a surrogate pair and read back as its first character. *)
Theorem C6_surrogate_pair_lost :
  let plain := with_secret 75 TtlUndefined in
  let timed := with_secret 75 (TtlNum 1) in
  let far := with_secret 4096 TtlUndefined in
  let w1 := (set noop host_ok config 0 (u16 "k") smile plain fresh).2 in
  let w2 := (set noop host_ok config 0 (u16 "k") smile timed fresh).2 in
  let w3 := (set noop host_ok config 0 (u16 "k") hangul far fresh).2 in
  is_json smile = true /\ is_json hangul = true /\
  (set noop host_ok config 0 (u16 "k") smile plain fresh).1 = VUndefined /\
  (set noop host_ok config 0 (u16 "k") smile timed fresh).1 = VUndefined /\
  (set noop host_ok config 0 (u16 "k") hangul far fresh).1 = VUndefined /\
  get noop host_ok config 0 (u16 "k") plain w1 = (Ret (VStr [55357]), w1) /\
  get noop host_ok config 0 (u16 "k") timed w2 = (Ret (VStr [55357]), w2) /\
  get noop host_ok config 0 (u16 "k") far w3 = (Ret (VStr [51200]), w3).
Proof. vm_compute. repeat split. Qed.



Lemma C8_set_failure_witness :
  set noop host_ok config 0 (u16 "k") (VArr [VBigInt 1]) no_config legacy = (VBool false, legacy) /\
  set noop host_full config 0 (u16 "k") (VNum 1) no_config legacy = (VBool false, legacy).
Proof.
  split.
  - apply (C8_set_failure noop host_ok config 0 (u16 "k") (VArr [VBigInt 1]) no_config legacy).
    left. reflexivity.
  - apply (C8_set_failure noop host_full config 0 (u16 "k") (VNum 1) no_config legacy).
    right. exists (Some (text (VNum 1))). split; reflexivity.
Defined.

(** C8 fails as stated: on the module's first operation a [set] whose
    serialization throws still reports [false], but the store has lost the
    expired entry under [old]. *)
Lemma C8_counterexample :
  (set noop host_ok config 5000 (u16 "k") (VBigInt 1) no_config stale).1 = VBool false /\
  localStorage stale !! u16 "old" = Some (text (wrapper (VNum 7) 1000)) /\
  localStorage (set noop host_ok config 5000 (u16 "k") (VBigInt 1) no_config stale).2
    !! u16 "old" = None.
Proof. vm_compute. repeat split. Qed.

Lemma C9_prefix_isolation_witness :
  let a := with_prefix (u16 "a:") in
  let b := with_prefix (u16 "b:") in
  let wa := (set noop host_ok config 0 (u16 "k") (VNum 1) a fresh).2 in
  let wb := (set noop host_ok config 0 (u16 "k") (VNum 2) b wa).2 in
  get noop host_ok config 0 (u16 "k") a wb = (Ret (VNum 1), wb) /\
  get noop host_ok config 0 (u16 "k") b wb = (Ret (VNum 2), wb) /\
  localStorage (clear host_ok config 0 a wb).2 !! u16 "a:k" = None /\
  localStorage (clear host_ok config 0 a wb).2 !! u16 "b:k" = Some (text (VNum 2)) /\
  localStorage (clear host_ok config 0 no_config wb).2 !! u16 "b:k" = None.
Proof.
  intros a b wa wb.
  destruct (C9_prefix_isolation noop host_ok config) as (Hget & Hclear).
  destruct (Hget 0 0 0 0 (u16 "k") (VNum 1) (VNum 2) (u16 "a:") (u16 "b:") fresh)
    as (H1 & H2); try reflexivity; try discriminate.
  split; [exact H1|]. split; [exact H2|]. split; [|split].
  - rewrite (Hclear 0 a wb (u16 "a:k")); reflexivity.
  - rewrite (Hclear 0 a wb (u16 "b:k")); reflexivity.
  - rewrite (Hclear 0 no_config wb (u16 "b:k")); reflexivity.
Defined.

(** C9 fails as stated: under the prefix [a:] the object [tagged] is read
    back as its [APX] field; and a [clear] under the prefix [a:] issued as
    the module's first operation removes the expired entry [old], whose key
    does not start with [a:]. *)
Lemma C9_counterexample :
  let a := with_prefix (u16 "a:") in
  let b := with_prefix (u16 "b:") in
  let wa := (set noop host_ok config 0 (u16 "k") tagged a fresh).2 in
  let wb := (set noop host_ok config 0 (u16 "k") (VNum 2) b wa).2 in
  (get noop host_ok config 0 (u16 "k") a wb).1 = Ret (VNum 1) /\
  (get noop host_ok config 0 (u16 "k") a wb).1 <> Ret tagged /\
  startsWith (u16 "a:") (u16 "old") = false /\
  localStorage stale !! u16 "old" = Some (text (wrapper (VNum 7) 1000)) /\
  localStorage (clear host_ok config 5000 a stale).2 !! u16 "old" = None.
Proof. vm_compute. repeat split; discriminate. Qed.

(** C10 fails as stated: issued as the module's first operation, a [get] of
    the absent key [k] removes the expired entry under the other key [old]. *)
Lemma C10_counterexample :
  localStorage stale !! u16 "k" = None /\
  localStorage stale !! u16 "old" = Some (text (wrapper (VNum 7) 1000)) /\
  (get noop host_ok config 5000 (u16 "k") no_config stale).1 = Ret VNull /\
  localStorage (get noop host_ok config 5000 (u16 "k") no_config stale).2 !! u16 "old" = None.
Proof. vm_compute. repeat split. Qed.

(** ** The further properties at concrete inputs *)

Lemma unavailable_store_witness :
  let w' := {| hasLS := Some false; localStorage := localStorage stale |} in
  set noop host_down config 5000 (u16 "k") (VNum 1) no_config stale = (VBool false, w') /\
  get noop host_down config 5000 (u16 "old") no_config stale = (Ret VNull, w') /\
  flush host_down config 5000 true no_config stale = (VBool false, w') /\
  remove host_down config 5000 (u16 "old") no_config stale = (VBool false, w') /\
  clear host_down config 5000 no_config stale = (VBool false, w').
Proof.
  apply (unavailable_store noop host_down config 5000 (u16 "k") (VNum 1) no_config true stale).
  reflexivity.
Defined.

Lemma init_sweep_only_expired_witness :
  localStorage (guarded host_ok config 5000 three) !! u16 "gone" = None /\
  (localStorage (guarded host_ok config 5000 three) !! u16 "old"
   = Some (text (wrapper (VNum 7) 1000)) \/
   (hasLS three = None /\ localStorage_ok host_ok = true /\
    localStorage (guarded host_ok config 5000 three) !! u16 "old" = None /\
    has_sentinel (wrapper (VNum 7) 1000) = true /\
    in_scope (prefix config) (u16 "old") = true /\
    forall e, prop (u16 "ttl") (wrapper (VNum 7) 1000) = VNum e -> e < 5000)).
Proof.
  destruct (init_sweep_only_expired host_ok config 5000 three) as (H1 & H2).
  split.
  - apply (H1 (u16 "gone")). reflexivity.
  - apply (H2 (u16 "old") (text (wrapper (VNum 7) 1000)) (wrapper (VNum 7) 1000));
      reflexivity.
Defined.

Lemma remove_then_get_witness :
  localStorage (remove host_ok config 0 (u16 "old") no_config three).2 !! u16 "new"
  = localStorage (guarded host_ok config 0 three) !! u16 "new".
Proof.
  apply (proj2 (remove_then_get noop host_ok config 0 0 (u16 "old") no_config three)
           (u16 "new")).
  discriminate.
Defined.

Lemma get_unparsable_throws_witness :
  get noop host_ok config 0 (u16 "k") no_config foreign
  = (Throw, guarded host_ok config 0 foreign) /\
  forall force localConfig',
    localStorage (flush host_ok config 0 force localConfig' foreign).2
      !! scoped (prefix (merge config no_config)) (u16 "k")
    = Some (u16 "hello").
Proof.
  apply (get_unparsable_throws noop host_ok config 0 (u16 "k") no_config foreign
           (u16 "hello") 104 (u16 "ello"));
    reflexivity.
Defined.

Lemma set_undefined_unreadable_witness :
  let w' := (set noop host_ok config 0 (u16 "k") VUndefined no_config fresh).2 in
  localStorage w' !! scoped (prefix (merge config no_config)) (u16 "k")
  = Some (u16 "undefined") /\
  get noop host_ok config 7 (u16 "k") no_config w' = (Throw, w').
Proof.
  apply (set_undefined_unreadable noop host_ok config no_config 0 7 (u16 "k") fresh);
    reflexivity.
Defined.

Lemma forced_flush_leaves_no_ttl_witness :
  (flush host_ok config 0 true no_config three_ready).1 = VUndefined /\
  localStorage three_ready !! u16 "new" = Some (text (wrapper (VNum 8) 9000)) /\
  localStorage (flush host_ok config 0 true no_config three_ready).2 !! u16 "new" = None /\
  localStorage (flush host_ok config 0 true no_config three_ready).2 !! u16 "old" = None.
Proof.
  destruct (forced_flush_leaves_no_ttl host_ok config 0 no_config three_ready)
    as (H1 & H2 & _); [reflexivity|].
  split; [exact H1|]. split; [reflexivity|]. split.
  - apply (H2 (u16 "new") (text (wrapper (VNum 8) 9000)) (wrapper (VNum 8) 9000));
      reflexivity.
  - apply (H2 (u16 "old") (text (wrapper (VNum 7) 1000)) (wrapper (VNum 7) 1000));
      reflexivity.
Defined.

Lemma set_frame_witness :
  localStorage (set noop host_ok config 0 (u16 "k") (VNum 1) no_config three).2 !! u16 "new"
  = localStorage (guarded host_ok config 0 three) !! u16 "new".
Proof.
  apply (set_frame noop host_ok config 0 (u16 "k") (VNum 1) no_config three (u16 "new")).
  discriminate.
Defined.

Lemma expiry_needs_no_secret_witness :
  let w' := (set noop host_ok config 0 (u16 "k") (VStr (u16 "hello"))
               (with_secret 75 (TtlNum 1)) fresh).2 in
  let kk := scoped (prefix config) (u16 "k") in
  (exists c, localStorage w' !! kk = Some (text (wrapper (VStr c) (0 + 1 * 1000)))) /\
  (get noop host_ok config 2000 (u16 "k") (with_secret 76 TtlUndefined) w').1 = Ret VNull /\
  localStorage (get noop host_ok config 2000 (u16 "k") (with_secret 76 TtlUndefined) w').2
    !! kk = None /\
  localStorage (flush host_ok config 2000 false no_config w').2 !! kk = None.
Proof.
  apply (expiry_needs_no_secret noop host_ok config 0 2000 (u16 "k") (VStr (u16 "hello"))
           75 1 (with_secret 76 TtlUndefined) fresh);
    reflexivity || discriminate.
Defined.

Lemma flush_between_set_and_get_witness :
  let w' := (set noop host_ok config 0 (u16 "k") (VNum 7) (with_ttl (TtlNum 1)) fresh).2 in
  get noop host_ok config 500 (u16 "k") no_config
    (flush host_ok config 500 false no_config w').2
  = (Ret (VNum 7), (flush host_ok config 500 false no_config w').2).
Proof.
  intros w'.
  apply (proj1 (flush_between_set_and_get noop host_ok config 0 500 (u16 "k") (VNum 7) 1 fresh
                  eq_refl (Z.le_refl 0) eq_refl eq_refl eq_refl eq_refl eq_refl)).
  discriminate.
Defined.

Lemma plain_data_survives_decrypt_witness :
  get noop host_ok config 0 (u16 "plain") (with_secret 75 TtlUndefined) three
  = (Ret (VNum 1), guarded host_ok config 0 three).
Proof.
  apply (plain_data_survives_decrypt noop host_ok config 0 (u16 "plain")
           (with_secret 75 TtlUndefined) three (text (VNum 1)) (VNum 1));
    reflexivity || exact I.
Defined.

Lemma negative_ttl_is_no_ttl_witness :
  set noop host_ok config10 0 (u16 "k") (VNum 1) (with_ttl (TtlNum (-5))) fresh
  = set noop host_ok config10 0 (u16 "k") (VNum 1) (with_ttl TtlNull) fresh.
Proof.
  apply (negative_ttl_is_no_ttl noop host_ok config10 0 (u16 "k") (VNum 1) (-5) fresh).
  reflexivity.
Defined.

Lemma flush_outside_prefix_witness :
  localStorage (flush host_ok config 5000 true (with_prefix (u16 "app_")) three).2 !! u16 "new"
  = localStorage (guarded host_ok config 5000 three) !! u16 "new".
Proof.
  apply (flush_outside_prefix host_ok config 5000 true (with_prefix (u16 "app_")) three
           (u16 "new")).
  reflexivity.
Defined.

Lemma set_overwrites_witness :
  exists o,
    encode noop (merge config no_config) 10 (VNum 2) = Ret o /\
    localStorage
      (set noop host_ok config 10 (u16 "k") (VNum 2) no_config
         (set noop host_ok config 0 (u16 "k") (VNum 1) (with_ttl (TtlNum 1)) fresh).2).2
    = <[scoped (prefix (merge config no_config)) (u16 "k") := default (u16 "undefined") o]>
        (localStorage (guarded host_ok config 0 fresh)).
Proof.
  apply (set_overwrites noop host_ok config 0 10 (u16 "k") (VNum 1) (VNum 2)
           (with_ttl (TtlNum 1)) no_config fresh);
    reflexivity.
Defined.
